(** * IasAvbVideoRingBufferShm: the shared-memory video ring buffer

    A shallow embedding of
    [private/src/avb_video_common/IasAvbVideoRingBufferShm.cpp]
    and the properties of its control block.

    Conventions of the embedding.
    - [uint32_t] and [uint64_t] values are integers of [Z]; every
      arithmetic operation of the source that can wrap is followed by
      [u32] or [u64].  [pid_t] is a signed integer, only compared.
    - The object lives in shared memory; an operation is a function from
      the control block to a result and the new control block.
    - [RingBufferReader *reader] is an alias into [mReaders]: it is a
      table index, read with [!!] and written with [alter].
    - [uint32_t *p] arguments are [option Z]: [None] is [nullptr],
      [Some v] a valid pointer whose pointee holds [v]; the pointees
      after the call are part of the result.
    - [clock_gettime] cannot be run here: every reading of the clock is
      an argument of the operation that makes it.
    - A timed wait on a condition variable cannot be run either: the
      wake-ups of a blocking call are a list of [WaitEvent], each with
      the primitive's result and what the caller sees in shared memory
      when it wakes.
    - [mMutex] and [mMutexReaders] are taken and released inside one
      call (also on the early return of [endAccess], through the lock
      guard), so they carry no state between calls; the writer-borrow
      mutex is held across calls and is a field.  Broadcasts on the
      condition variables and the log lines change nothing in the
      control block and are left out. *)

From stdpp Require Import base numbers list option.
From Stdlib Require Import ZArith Lia Bool ZifyBool.

Local Open Scope Z_scope.

(** ** Machine integers *)

Definition u32 (z : Z) : Z := z mod 2 ^ 32.
Definition u64 (z : Z) : Z := z mod 2 ^ 64.
Definition UINT32_MAX : Z := 4294967295.

Definition is_u32 (z : Z) : Prop := 0 <= z < 2 ^ 32.
Definition is_u64 (z : Z) : Prop := 0 <= z < 2 ^ 64.

(** ** Constants *)

Definition NSEC_PER_SEC : Z := 1000000000.
Definition READER_TIMEOUT_NS : Z := 2 * NSEC_PER_SEC.

(** Modelled from the spec: the header that declares the capacity of the
    reader table is missing; the spec gives [cMaxReaders = 16]. *)
Definition cIasVideoRingBufferShmMaxReaders : nat := 16.

(** ** Enumerations *)

Inductive IasVideoRingBufferResult : Set :=
| eIasRingBuffOk
| eIasRingBuffInvalidParam
| eIasRingBuffNotInitialized
| eIasRingBuffNotAllowed
| eIasRingBuffTimeOut
| eIasRingBuffCondWaitFailed
| eIasRingBuffTooManyReaders.

Inductive IasRingBufferAccess : Set :=
| eIasRingBufferAccessUndef
| eIasRingBufferAccessRead
| eIasRingBufferAccessWrite.

(** Result of [IasAvbVideoCondVar::wait]: the source tells [eIasOk] and
    [eIasTimeout] apart from every other value. *)
Inductive CondVarResult : Set :=
| eIasOk
| eIasTimeout
| eIasCondVarFailed.

#[global] Instance IasVideoRingBufferResult_eq_dec :
  EqDecision IasVideoRingBufferResult.
Proof. solve_decision. Defined.

#[global] Instance IasRingBufferAccess_eq_dec :
  EqDecision IasRingBufferAccess.
Proof. solve_decision. Defined.

(** ** The clock *)

Record timespec : Set := { tv_sec : Z; tv_nsec : Z }.

(** [ts.tv_sec * NSEC_PER_SEC + ts.tv_nsec], stored in a [uint64_t]. *)
Definition timespec_ns (ts : timespec) : Z :=
  u64 (tv_sec ts * NSEC_PER_SEC + tv_nsec ts).

(** ** Data model *)

(** One entry of the reader table.  The header with the declaration is
    missing: [offset] and [allowedToRead] are taken to be [uint32_t]
    like the values they are assigned from, [lastAccess] is [uint64_t]
    as [purgeUnresponsiveReaders] reads it. *)
Record RingBufferReader : Set := {
  pid : Z;
  offset : Z;
  lastAccess : Z;
  allowedToRead : Z
}.

Definition noReader : RingBufferReader :=
  {| pid := 0; offset := 0; lastAccess := 0; allowedToRead := 0 |}.

#[global] Instance RingBufferReader_eq_dec : EqDecision RingBufferReader.
Proof. solve_decision. Defined.

Definition set_pid (v : Z) (r : RingBufferReader) : RingBufferReader :=
  {| pid := v; offset := offset r; lastAccess := lastAccess r;
     allowedToRead := allowedToRead r |}.
Definition set_offset (v : Z) (r : RingBufferReader) : RingBufferReader :=
  {| pid := pid r; offset := v; lastAccess := lastAccess r;
     allowedToRead := allowedToRead r |}.
Definition set_lastAccess (v : Z) (r : RingBufferReader) : RingBufferReader :=
  {| pid := pid r; offset := offset r; lastAccess := v;
     allowedToRead := allowedToRead r |}.
Definition set_allowedToRead (v : Z) (r : RingBufferReader) : RingBufferReader :=
  {| pid := pid r; offset := offset r; lastAccess := lastAccess r;
     allowedToRead := v |}.

(** The control block.  [mDataBuf] is the address of the slot array
    ([0] is [nullptr]); [mMutexWriteInProgress] is [true] while the
    writer-borrow mutex is held. *)
Record IasAvbVideoRingBufferShm : Set := {
  mBufferSize : Z;
  mNumBuffers : Z;
  mReadOffset : Z;
  mWriteOffset : Z;
  mBufferLevel : Z;
  mShared : bool;
  mInitialized : bool;
  mReadInProgress : bool;
  mWriteInProgress : bool;
  mDataBuf : Z;
  mMutexWriteInProgress : bool;
  mReadWaitLevel : Z;
  mWriteWaitLevel : Z;
  mAllowedToWrite : Z;
  mWriterLastAccess : Z;
  mReaders : list RingBufferReader
}.

Section Setters.
Variable s : IasAvbVideoRingBufferShm.

Definition set_geometry (size num buf : Z) : IasAvbVideoRingBufferShm :=
  {| mBufferSize := size; mNumBuffers := num;
     mReadOffset := mReadOffset s; mWriteOffset := mWriteOffset s;
     mBufferLevel := mBufferLevel s; mShared := mShared s;
     mInitialized := true; mReadInProgress := mReadInProgress s;
     mWriteInProgress := mWriteInProgress s; mDataBuf := buf;
     mMutexWriteInProgress := mMutexWriteInProgress s;
     mReadWaitLevel := mReadWaitLevel s;
     mWriteWaitLevel := mWriteWaitLevel s;
     mAllowedToWrite := mAllowedToWrite s;
     mWriterLastAccess := mWriterLastAccess s; mReaders := mReaders s |}.

Definition set_mShared (v : bool) : IasAvbVideoRingBufferShm :=
  {| mBufferSize := mBufferSize s; mNumBuffers := mNumBuffers s;
     mReadOffset := mReadOffset s; mWriteOffset := mWriteOffset s;
     mBufferLevel := mBufferLevel s; mShared := v;
     mInitialized := mInitialized s; mReadInProgress := mReadInProgress s;
     mWriteInProgress := mWriteInProgress s; mDataBuf := mDataBuf s;
     mMutexWriteInProgress := mMutexWriteInProgress s;
     mReadWaitLevel := mReadWaitLevel s;
     mWriteWaitLevel := mWriteWaitLevel s;
     mAllowedToWrite := mAllowedToWrite s;
     mWriterLastAccess := mWriterLastAccess s; mReaders := mReaders s |}.

Definition set_mReadOffset (v : Z) : IasAvbVideoRingBufferShm :=
  {| mBufferSize := mBufferSize s; mNumBuffers := mNumBuffers s;
     mReadOffset := v; mWriteOffset := mWriteOffset s;
     mBufferLevel := mBufferLevel s; mShared := mShared s;
     mInitialized := mInitialized s; mReadInProgress := mReadInProgress s;
     mWriteInProgress := mWriteInProgress s; mDataBuf := mDataBuf s;
     mMutexWriteInProgress := mMutexWriteInProgress s;
     mReadWaitLevel := mReadWaitLevel s;
     mWriteWaitLevel := mWriteWaitLevel s;
     mAllowedToWrite := mAllowedToWrite s;
     mWriterLastAccess := mWriterLastAccess s; mReaders := mReaders s |}.

Definition set_mWriteOffset (v : Z) : IasAvbVideoRingBufferShm :=
  {| mBufferSize := mBufferSize s; mNumBuffers := mNumBuffers s;
     mReadOffset := mReadOffset s; mWriteOffset := v;
     mBufferLevel := mBufferLevel s; mShared := mShared s;
     mInitialized := mInitialized s; mReadInProgress := mReadInProgress s;
     mWriteInProgress := mWriteInProgress s; mDataBuf := mDataBuf s;
     mMutexWriteInProgress := mMutexWriteInProgress s;
     mReadWaitLevel := mReadWaitLevel s;
     mWriteWaitLevel := mWriteWaitLevel s;
     mAllowedToWrite := mAllowedToWrite s;
     mWriterLastAccess := mWriterLastAccess s; mReaders := mReaders s |}.

Definition set_mBufferLevel (v : Z) : IasAvbVideoRingBufferShm :=
  {| mBufferSize := mBufferSize s; mNumBuffers := mNumBuffers s;
     mReadOffset := mReadOffset s; mWriteOffset := mWriteOffset s;
     mBufferLevel := v; mShared := mShared s;
     mInitialized := mInitialized s; mReadInProgress := mReadInProgress s;
     mWriteInProgress := mWriteInProgress s; mDataBuf := mDataBuf s;
     mMutexWriteInProgress := mMutexWriteInProgress s;
     mReadWaitLevel := mReadWaitLevel s;
     mWriteWaitLevel := mWriteWaitLevel s;
     mAllowedToWrite := mAllowedToWrite s;
     mWriterLastAccess := mWriterLastAccess s; mReaders := mReaders s |}.

(** [mWriteInProgress.exchange(b)] together with the lock or unlock of
    [mMutexWriteInProgress] that always accompanies it. *)
Definition set_writeBorrow (b : bool) : IasAvbVideoRingBufferShm :=
  {| mBufferSize := mBufferSize s; mNumBuffers := mNumBuffers s;
     mReadOffset := mReadOffset s; mWriteOffset := mWriteOffset s;
     mBufferLevel := mBufferLevel s; mShared := mShared s;
     mInitialized := mInitialized s; mReadInProgress := mReadInProgress s;
     mWriteInProgress := b; mDataBuf := mDataBuf s;
     mMutexWriteInProgress := b;
     mReadWaitLevel := mReadWaitLevel s;
     mWriteWaitLevel := mWriteWaitLevel s;
     mAllowedToWrite := mAllowedToWrite s;
     mWriterLastAccess := mWriterLastAccess s; mReaders := mReaders s |}.

Definition set_mReadWaitLevel (v : Z) : IasAvbVideoRingBufferShm :=
  {| mBufferSize := mBufferSize s; mNumBuffers := mNumBuffers s;
     mReadOffset := mReadOffset s; mWriteOffset := mWriteOffset s;
     mBufferLevel := mBufferLevel s; mShared := mShared s;
     mInitialized := mInitialized s; mReadInProgress := mReadInProgress s;
     mWriteInProgress := mWriteInProgress s; mDataBuf := mDataBuf s;
     mMutexWriteInProgress := mMutexWriteInProgress s;
     mReadWaitLevel := v;
     mWriteWaitLevel := mWriteWaitLevel s;
     mAllowedToWrite := mAllowedToWrite s;
     mWriterLastAccess := mWriterLastAccess s; mReaders := mReaders s |}.

Definition set_mWriteWaitLevel (v : Z) : IasAvbVideoRingBufferShm :=
  {| mBufferSize := mBufferSize s; mNumBuffers := mNumBuffers s;
     mReadOffset := mReadOffset s; mWriteOffset := mWriteOffset s;
     mBufferLevel := mBufferLevel s; mShared := mShared s;
     mInitialized := mInitialized s; mReadInProgress := mReadInProgress s;
     mWriteInProgress := mWriteInProgress s; mDataBuf := mDataBuf s;
     mMutexWriteInProgress := mMutexWriteInProgress s;
     mReadWaitLevel := mReadWaitLevel s;
     mWriteWaitLevel := v;
     mAllowedToWrite := mAllowedToWrite s;
     mWriterLastAccess := mWriterLastAccess s; mReaders := mReaders s |}.

Definition set_mAllowedToWrite (v : Z) : IasAvbVideoRingBufferShm :=
  {| mBufferSize := mBufferSize s; mNumBuffers := mNumBuffers s;
     mReadOffset := mReadOffset s; mWriteOffset := mWriteOffset s;
     mBufferLevel := mBufferLevel s; mShared := mShared s;
     mInitialized := mInitialized s; mReadInProgress := mReadInProgress s;
     mWriteInProgress := mWriteInProgress s; mDataBuf := mDataBuf s;
     mMutexWriteInProgress := mMutexWriteInProgress s;
     mReadWaitLevel := mReadWaitLevel s;
     mWriteWaitLevel := mWriteWaitLevel s;
     mAllowedToWrite := v;
     mWriterLastAccess := mWriterLastAccess s; mReaders := mReaders s |}.

Definition set_mWriterLastAccess (v : Z) : IasAvbVideoRingBufferShm :=
  {| mBufferSize := mBufferSize s; mNumBuffers := mNumBuffers s;
     mReadOffset := mReadOffset s; mWriteOffset := mWriteOffset s;
     mBufferLevel := mBufferLevel s; mShared := mShared s;
     mInitialized := mInitialized s; mReadInProgress := mReadInProgress s;
     mWriteInProgress := mWriteInProgress s; mDataBuf := mDataBuf s;
     mMutexWriteInProgress := mMutexWriteInProgress s;
     mReadWaitLevel := mReadWaitLevel s;
     mWriteWaitLevel := mWriteWaitLevel s;
     mAllowedToWrite := mAllowedToWrite s;
     mWriterLastAccess := v; mReaders := mReaders s |}.

Definition set_mReaders (v : list RingBufferReader)
  : IasAvbVideoRingBufferShm :=
  {| mBufferSize := mBufferSize s; mNumBuffers := mNumBuffers s;
     mReadOffset := mReadOffset s; mWriteOffset := mWriteOffset s;
     mBufferLevel := mBufferLevel s; mShared := mShared s;
     mInitialized := mInitialized s; mReadInProgress := mReadInProgress s;
     mWriteInProgress := mWriteInProgress s; mDataBuf := mDataBuf s;
     mMutexWriteInProgress := mMutexWriteInProgress s;
     mReadWaitLevel := mReadWaitLevel s;
     mWriteWaitLevel := mWriteWaitLevel s;
     mAllowedToWrite := mAllowedToWrite s;
     mWriterLastAccess := mWriterLastAccess s; mReaders := v |}.
End Setters.

(** ** Construction and initialisation *)

(** The constructor: every member zero, [mReaders{}] value-initialised. *)
Definition constructed : IasAvbVideoRingBufferShm :=
  {| mBufferSize := 0; mNumBuffers := 0; mReadOffset := 0;
     mWriteOffset := 0; mBufferLevel := 0; mShared := false;
     mInitialized := false; mReadInProgress := false;
     mWriteInProgress := false; mDataBuf := 0;
     mMutexWriteInProgress := false; mReadWaitLevel := 0;
     mWriteWaitLevel := 0; mAllowedToWrite := 0; mWriterLastAccess := 0;
     mReaders := replicate cIasVideoRingBufferShmMaxReaders noReader |}.

(** [init], lines 66-86. *)
Definition init (packetSize numBuffers dataBuf : Z) (shared : bool)
    (s : IasAvbVideoRingBufferShm)
  : IasVideoRingBufferResult * IasAvbVideoRingBufferShm :=
  let s := set_mShared s shared in
  if (packetSize =? 0) || (numBuffers =? 0) || (dataBuf =? 0)
  then (eIasRingBuffInvalidParam, s)
  else (eIasRingBuffOk, set_geometry s packetSize numBuffers dataBuf).

(** ** The reader table *)

(** Modelled from the spec: [findReader] is declared in the missing
    header.  The spec says the operations "find the reader" with the
    given id and fail with [InvalidParam] for an unknown id: the table
    is scanned in order and the first entry whose id equals the
    argument is returned, [None] standing for [nullptr]. *)
Definition findReader (p : Z) (s : IasAvbVideoRingBufferShm) : option nat :=
  fst <$> list_find (λ r, pid r = p) (mReaders s).

(** [*reader] for a pointer into the table. *)
Definition readerAt (s : IasAvbVideoRingBufferShm) (reader : nat)
  : RingBufferReader :=
  default noReader (mReaders s !! reader).

(** [updateReaderAccess], lines 510-517, with the clock reading [ts]. *)
Definition updateReaderAccess (ts : timespec) (reader : nat)
    (s : IasAvbVideoRingBufferShm) : IasAvbVideoRingBufferShm :=
  set_mReaders s (alter (set_lastAccess (timespec_ns ts)) reader (mReaders s)).

(** [updateWriterAccess], lines 519-526. *)
Definition updateWriterAccess (ts : timespec)
    (s : IasAvbVideoRingBufferShm) : IasAvbVideoRingBufferShm :=
  set_mWriterLastAccess s (timespec_ns ts).

(** [calculateReaderBufferLevel], lines 478-508. *)
Definition calculateReaderBufferLevel (s : IasAvbVideoRingBufferShm)
    (reader : nat) : Z :=
  let writeOffset := mWriteOffset s in
  let r := readerAt s reader in
  if writeOffset >=? offset r
  then u32 (writeOffset - offset r)
  else u32 (u32 (mNumBuffers s - offset r) + writeOffset).

(** One turn of the first loop of [updateSmallerReaderOffset]. *)
Definition smallerOf (smallerOffset : Z) (r : RingBufferReader) : Z :=
  if pid r =? 0 then smallerOffset
  else if offset r <? smallerOffset then offset r else smallerOffset.

(** One turn of its second loop. *)
Definition resetOffset (r : RingBufferReader) : RingBufferReader :=
  if pid r =? 0 then r else set_offset 0 r.

(** [updateSmallerReaderOffset], lines 415-455: the smallest offset of
    the live entries, [UINT32_MAX] when there is none; when it is
    [mNumBuffers] every live entry goes back to offset [0]. *)
Definition updateSmallerReaderOffset (s : IasAvbVideoRingBufferShm)
  : Z * IasAvbVideoRingBufferShm :=
  let smallerOffset := fold_left smallerOf (mReaders s) UINT32_MAX in
  if smallerOffset =? UINT32_MAX then (smallerOffset, s)
  else if smallerOffset =? mNumBuffers s
  then (smallerOffset, set_mReaders s (resetOffset <$> mReaders s))
  else (smallerOffset, s).

(** [aggregateReaderOffset], lines 457-476.  The subtraction from
    [mBufferLevel] is made whatever [smallerOffset] is. *)
Definition aggregateReaderOffset (s : IasAvbVideoRingBufferShm)
  : IasAvbVideoRingBufferShm :=
  let '(smallerOffset, s) := updateSmallerReaderOffset s in
  let s := set_mBufferLevel s
             (u32 (mBufferLevel s - u32 (smallerOffset - mReadOffset s))) in
  if smallerOffset =? mNumBuffers s then set_mReadOffset s 0
  else if smallerOffset <? mNumBuffers s then set_mReadOffset s smallerOffset
  else s.

(** One turn of the loop of [purgeUnresponsiveReaders], lines 539-549. *)
Definition purgeEntry (now : Z) (r : RingBufferReader) : RingBufferReader :=
  if pid r =? 0 then r
  else
    let lastAccess := lastAccess r in
    if (now >? lastAccess) && (u64 (now - lastAccess) >? READER_TIMEOUT_NS)
    then noReader
    else r.

(** [purgeUnresponsiveReaders], lines 528-551. *)
Definition purgeUnresponsiveReaders (ts : timespec)
    (s : IasAvbVideoRingBufferShm) : IasAvbVideoRingBufferShm :=
  let now := timespec_ns ts in
  set_mReaders s (purgeEntry now <$> mReaders s).

(** ** Reader registration *)

(** [addReader], lines 363-389: the first free entry takes the id and
    the current [mReadOffset]; [allowedToRead] is not written. *)
Definition addReader (p : Z) (ts : timespec) (s : IasAvbVideoRingBufferShm)
  : IasVideoRingBufferResult * IasAvbVideoRingBufferShm :=
  if p <=? 0 then (eIasRingBuffInvalidParam, s)
  else
    match list_find (λ r, pid r = 0) (mReaders s) with
    | Some (i, _) =>
        let s := set_mReaders s
                   (alter (λ r, set_offset (mReadOffset s) (set_pid p r))
                      i (mReaders s)) in
        (eIasRingBuffOk, updateReaderAccess ts i s)
    | None => (eIasRingBuffTooManyReaders, s)
    end.

(** One turn of the loop of [removeReader], lines 400-407. *)
Definition clearEntry (p : Z) (r : RingBufferReader) : RingBufferReader :=
  if pid r =? p then noReader else r.

(** [removeReader], lines 391-413: every entry with the id is cleared. *)
Definition removeReader (p : Z) (s : IasAvbVideoRingBufferShm)
  : IasVideoRingBufferResult * IasAvbVideoRingBufferShm :=
  if p >? 0 then
    (if existsb (λ r, pid r =? p) (mReaders s)
     then eIasRingBuffOk else eIasRingBuffInvalidParam,
     set_mReaders s (clearEntry p <$> mReaders s))
  else (eIasRingBuffInvalidParam, s).

(** ** Availability query *)

(** [updateAvailable], lines 89-120; the state is only read. *)
Definition updateAvailable (access : IasRingBufferAccess) (p : Z)
    (numBuffers : option Z) (s : IasAvbVideoRingBufferShm)
  : IasVideoRingBufferResult * option Z :=
  match numBuffers, access with
  | None, _ | _, eIasRingBufferAccessUndef =>
      (eIasRingBuffInvalidParam, numBuffers)
  | Some _, eIasRingBufferAccessRead =>
      if negb (mInitialized s) then (eIasRingBuffNotInitialized, numBuffers)
      else
        match findReader p s with
        | None => (eIasRingBuffInvalidParam, numBuffers)
        | Some reader =>
            (eIasRingBuffOk, Some (calculateReaderBufferLevel s reader))
        end
  | Some _, eIasRingBufferAccessWrite =>
      if negb (mInitialized s) then (eIasRingBuffNotInitialized, numBuffers)
      else (eIasRingBuffOk, Some (u32 (mNumBuffers s - mBufferLevel s)))
  end.

(** ** The borrow protocol *)

(** What [beginAccess] hands back: the result, the pointees of [offset]
    and [numBuffers] after the call, and the control block. *)
Record BeginAccess : Set := {
  ba_result : IasVideoRingBufferResult;
  ba_offset : option Z;
  ba_numBuffers : option Z;
  ba_state : IasAvbVideoRingBufferShm
}.

(** The read branch of [beginAccess] once the reader is found, lines
    143-160. *)
Definition beginRead (reader : nat) (numBuffers : Z) (ts : timespec)
    (s : IasAvbVideoRingBufferShm) : BeginAccess :=
  let bufferLevel := calculateReaderBufferLevel s reader in
  let off := offset (readerAt s reader) in
  let numBuffers := if numBuffers >? bufferLevel then bufferLevel
                    else numBuffers in
  let numBuffers := if u32 (off + numBuffers) >=? mNumBuffers s
                    then u32 (mNumBuffers s - off) else numBuffers in
  let s := set_mReaders s
             (alter (set_allowedToRead numBuffers) reader (mReaders s)) in
  let s := updateReaderAccess ts reader s in
  {| ba_result := eIasRingBuffOk; ba_offset := Some off;
     ba_numBuffers := Some numBuffers; ba_state := s |}.

(** The write branch of [beginAccess] when no write borrow is in
    flight, lines 169-198. *)
Definition beginWrite (numBuffers : Z) (ts : timespec)
    (s : IasAvbVideoRingBufferShm) : BeginAccess :=
  let s := set_writeBorrow s true in
  let off := mWriteOffset s in
  let bufferLevel := mBufferLevel s in
  let numBuffers := if numBuffers >? u32 (mNumBuffers s - bufferLevel)
                    then u32 (mNumBuffers s - bufferLevel) else numBuffers in
  let numBuffers := if u32 (mWriteOffset s + numBuffers) >=? mNumBuffers s
                    then u32 (mNumBuffers s - mWriteOffset s)
                    else numBuffers in
  let numBuffers := if mWriteOffset s <? mReadOffset s
                    then u32 (u32 (mReadOffset s - mWriteOffset s) - 1)
                    else numBuffers in
  let s := set_mAllowedToWrite s numBuffers in
  let s := updateWriterAccess ts s in
  {| ba_result := eIasRingBuffOk; ba_offset := Some off;
     ba_numBuffers := Some numBuffers; ba_state := s |}.

(** [beginAccess], lines 123-202. *)
Definition beginAccess (access : IasRingBufferAccess) (p : Z)
    (offset_p numBuffers_p : option Z) (ts : timespec)
    (s : IasAvbVideoRingBufferShm) : BeginAccess :=
  let fail r := {| ba_result := r; ba_offset := offset_p;
                   ba_numBuffers := numBuffers_p; ba_state := s |} in
  match offset_p, numBuffers_p, access with
  | None, _, _ | _, None, _ | _, _, eIasRingBufferAccessUndef =>
      fail eIasRingBuffInvalidParam
  | Some _, Some numBuffers, eIasRingBufferAccessRead =>
      if negb (mInitialized s) then fail eIasRingBuffNotInitialized
      else
        match findReader p s with
        | None => fail eIasRingBuffInvalidParam
        | Some reader => beginRead reader numBuffers ts s
        end
  | Some _, Some numBuffers, eIasRingBufferAccessWrite =>
      if negb (mInitialized s) then fail eIasRingBuffNotInitialized
      else if mWriteInProgress s then fail eIasRingBuffNotAllowed
      else beginWrite numBuffers ts s
  end.

(** The read branch of [endAccess] once the reader is found, lines
    220-240. *)
Definition endRead (reader : nat) (numBuffers : Z) (ts : timespec)
    (s : IasAvbVideoRingBufferShm)
  : IasVideoRingBufferResult * IasAvbVideoRingBufferShm :=
  if numBuffers >? allowedToRead (readerAt s reader)
  then (eIasRingBuffInvalidParam, s)
  else
    let s := set_mReaders s
               (alter (λ r, set_offset (u32 (offset r + numBuffers))
                              (set_allowedToRead 0 r))
                  reader (mReaders s)) in
    let s := aggregateReaderOffset s in
    (eIasRingBuffOk, updateReaderAccess ts reader s).

(** The write branch of [endAccess], lines 246-278, entered with
    [mWriteInProgress] set.  [mAllowedToWrite] is cleared before the
    geometry check, whose failure returns at once.  [tsAccess] is the clock as [updateWriterAccess] reads it, [tsPurge]
    as [purgeUnresponsiveReaders] reads it afterwards. *)
Definition endWrite (numBuffers : Z) (tsAccess tsPurge : timespec)
    (s : IasAvbVideoRingBufferShm)
  : IasVideoRingBufferResult * IasAvbVideoRingBufferShm :=
  if numBuffers >? mAllowedToWrite s then (eIasRingBuffInvalidParam, s)
  else
    let s := set_mAllowedToWrite s 0 in
    let commit s :=
      let s := set_mBufferLevel s (u32 (mBufferLevel s + numBuffers)) in
      let s := set_writeBorrow s false in
      let s := updateWriterAccess tsAccess s in
      (eIasRingBuffOk, purgeUnresponsiveReaders tsPurge s) in
    if u32 (mWriteOffset s + numBuffers) =? mNumBuffers s
    then commit (set_mWriteOffset s 0)
    else if u32 (mWriteOffset s + numBuffers) >? mNumBuffers s
    then (eIasRingBuffInvalidParam, s)
    else commit (set_mWriteOffset s (u32 (mWriteOffset s + numBuffers))).

(** [endAccess], lines 204-283.  [offset_a] is the [offset] argument,
    which the source casts to [void]. *)
Definition endAccess (access : IasRingBufferAccess) (p : Z)
    (offset_a numBuffers : Z) (tsAccess tsPurge : timespec)
    (s : IasAvbVideoRingBufferShm)
  : IasVideoRingBufferResult * IasAvbVideoRingBufferShm :=
  match access with
  | eIasRingBufferAccessUndef => (eIasRingBuffInvalidParam, s)
  | eIasRingBufferAccessRead =>
      match findReader p s with
      | None => (eIasRingBuffInvalidParam, s)
      | Some reader => endRead reader numBuffers tsAccess s
      end
  | eIasRingBufferAccessWrite =>
      if mWriteInProgress s then endWrite numBuffers tsAccess tsPurge s
      else (eIasRingBuffOk, s)
  end.

(** ** The wait protocol *)

(** One return of [IasAvbVideoCondVar::wait]: the primitive's result,
    the values of [mBufferLevel] and [mWriteOffset] that the other
    processes have left in shared memory by then, and the clock as
    the woken caller reads it. *)
Record WaitEvent : Set := {
  cndres : CondVarResult;
  wake_mBufferLevel : Z;
  wake_mWriteOffset : Z;
  wake_ts : timespec
}.

(** The loop of [waitWrite].  [None]: the caller is still blocked when
    the wake-ups given are used up. *)
Fixpoint waitWrite_loop (events : list WaitEvent)
    (s : IasAvbVideoRingBufferShm)
  : option (IasVideoRingBufferResult * IasAvbVideoRingBufferShm) :=
  if mBufferLevel s >? mWriteWaitLevel s then
    match events with
    | [] => None
    | e :: events =>
        let s := set_mBufferLevel s (wake_mBufferLevel e) in
        match cndres e with
        | eIasTimeout =>
            Some (if mBufferLevel s >? mWriteWaitLevel s
                  then eIasRingBuffTimeOut else eIasRingBuffOk, s)
        | eIasOk => waitWrite_loop events s
        | eIasCondVarFailed => Some (eIasRingBuffCondWaitFailed, s)
        end
    end
  else Some (eIasRingBuffOk, s).

(** [waitWrite], lines 286-317. *)
Definition waitWrite (numBuffers timeout_ms : Z) (events : list WaitEvent)
    (s : IasAvbVideoRingBufferShm)
  : option (IasVideoRingBufferResult * IasAvbVideoRingBufferShm) :=
  if (numBuffers >? mNumBuffers s) || (numBuffers =? 0) || (timeout_ms =? 0)
  then Some (eIasRingBuffInvalidParam, s)
  else
    waitWrite_loop events
      (set_mWriteWaitLevel s (u32 (mNumBuffers s - numBuffers))).

(** The loop of [waitRead]. *)
Fixpoint waitRead_loop (reader : nat) (numBuffers : Z)
    (events : list WaitEvent) (s : IasAvbVideoRingBufferShm)
  : option (IasVideoRingBufferResult * IasAvbVideoRingBufferShm) :=
  if calculateReaderBufferLevel s reader <? numBuffers then
    match events with
    | [] => None
    | e :: events =>
        let s := set_mWriteOffset s (wake_mWriteOffset e) in
        let s := updateReaderAccess (wake_ts e) reader s in
        match cndres e with
        | eIasTimeout =>
            Some (if calculateReaderBufferLevel s reader <? numBuffers
                  then eIasRingBuffTimeOut else eIasRingBuffOk, s)
        | eIasOk => waitRead_loop reader numBuffers events s
        | eIasCondVarFailed => Some (eIasRingBuffCondWaitFailed, s)
        end
    end
  else Some (eIasRingBuffOk, s).

(** [waitRead], lines 320-361. *)
Definition waitRead (p numBuffers timeout_ms : Z) (ts : timespec)
    (events : list WaitEvent) (s : IasAvbVideoRingBufferShm)
  : option (IasVideoRingBufferResult * IasAvbVideoRingBufferShm) :=
  match findReader p s with
  | None => Some (eIasRingBuffInvalidParam, s)
  | Some reader =>
      if (numBuffers >? mNumBuffers s) || (numBuffers =? 0)
         || (timeout_ms =? 0)
      then Some (eIasRingBuffInvalidParam, s)
      else
        let s := if numBuffers <? mReadWaitLevel s
                 then set_mReadWaitLevel s numBuffers else s in
        let s := updateReaderAccess ts reader s in
        waitRead_loop reader numBuffers events s
  end.

(** ** Sequences of calls *)

(** A call of the public interface after [init], with the clock
    readings and wake-ups it meets. *)
Inductive Call : Set :=
| callAddReader (p : Z) (ts : timespec)
| callRemoveReader (p : Z)
| callUpdateAvailable (access : IasRingBufferAccess) (p : Z)
    (numBuffers_p : option Z)
| callBeginAccess (access : IasRingBufferAccess) (p : Z)
    (offset_p numBuffers_p : option Z) (ts : timespec)
| callEndAccess (access : IasRingBufferAccess) (p : Z)
    (offset_a numBuffers : Z) (tsAccess tsPurge : timespec)
| callWaitRead (p numBuffers timeout_ms : Z) (ts : timespec)
    (events : list WaitEvent)
| callWaitWrite (numBuffers timeout_ms : Z) (events : list WaitEvent).

(** The control block after a call; [None] when the call is still
    blocked in a wait. *)
Definition call (c : Call) (s : IasAvbVideoRingBufferShm)
  : option IasAvbVideoRingBufferShm :=
  match c with
  | callAddReader p ts => Some (addReader p ts s).2
  | callRemoveReader p => Some (removeReader p s).2
  | callUpdateAvailable _ _ _ => Some s
  | callBeginAccess access p offset_p numBuffers_p ts =>
      Some (ba_state (beginAccess access p offset_p numBuffers_p ts s))
  | callEndAccess access p offset_a numBuffers tsAccess tsPurge =>
      Some (endAccess access p offset_a numBuffers tsAccess tsPurge s).2
  | callWaitRead p numBuffers timeout_ms ts events =>
      snd <$> waitRead p numBuffers timeout_ms ts events s
  | callWaitWrite numBuffers timeout_ms events =>
      snd <$> waitWrite numBuffers timeout_ms events s
  end.

Fixpoint calls (cs : list Call) (s : IasAvbVideoRingBufferShm)
  : option IasAvbVideoRingBufferShm :=
  match cs with
  | [] => Some s
  | c :: cs => match call c s with
               | Some s => calls cs s
               | None => None
               end
  end.

(** What a sequence of calls made one after the other can be: counts
    are [uint32_t]; the calls that look a reader up are made with a
    reader id, which is never [0] (the mark of a free entry); and while
    a caller is blocked in a wait nobody else runs, so it wakes to the
    shared memory it left. *)
Definition legal (c : Call) (s : IasAvbVideoRingBufferShm) : Prop :=
  match c with
  | callAddReader _ _ | callRemoveReader _ | callUpdateAvailable _ _ _ =>
      True
  | callBeginAccess access p _ numBuffers_p _ =>
      (access = eIasRingBufferAccessRead → p ≠ 0)
      ∧ from_option is_u32 True numBuffers_p
  | callEndAccess access p _ numBuffers _ _ =>
      (access = eIasRingBufferAccessRead → p ≠ 0) ∧ is_u32 numBuffers
  | callWaitRead p numBuffers _ _ events =>
      p ≠ 0 ∧ is_u32 numBuffers
      ∧ Forall (λ e, wake_mWriteOffset e = mWriteOffset s) events
  | callWaitWrite numBuffers _ events =>
      is_u32 numBuffers
      ∧ Forall (λ e, wake_mBufferLevel e = mBufferLevel s) events
  end.

(** The control blocks that a successful [init] of a fresh object
    followed by calls of the interface can produce. *)
Inductive reachable : IasAvbVideoRingBufferShm → Prop :=
| reachable_init packetSize numBuffers dataBuf shared s :
    is_u32 numBuffers →
    init packetSize numBuffers dataBuf shared constructed
      = (eIasRingBuffOk, s) →
    reachable s
| reachable_call c s s' :
    reachable s → legal c s → call c s = Some s' → reachable s'.

(** ** Predicates of the specification *)

(** The fill level as the data model of the specification gives it:
    [(writeOffset - readOffset) mod numBuffers]. *)
Definition specLevel (s : IasAvbVideoRingBufferShm) : Z :=
  (mWriteOffset s - mReadOffset s) mod mNumBuffers s.

(** An entry is live when its id is not [0]. *)
Definition live (r : RingBufferReader) : Prop := pid r ≠ 0.

(** The staleness test of the purge, in unbounded arithmetic. *)
Definition stale (now : Z) (r : RingBufferReader) : Prop :=
  now > lastAccess r ∧ now - lastAccess r > READER_TIMEOUT_NS.

(** What holds of a live table entry in every reachable control block
    of a ring that is not too large: it lies between [mReadOffset] and
    the physical end, and what it may still commit is counted in
    [mBufferLevel]. *)
Definition reader_ok (numBuffers readOffset bufferLevel : Z)
    (r : RingBufferReader) : Prop :=
  live r →
  readOffset <= offset r
  ∧ 0 <= allowedToRead r
  ∧ offset r + allowedToRead r <= numBuffers
  ∧ offset r + allowedToRead r - readOffset <= bufferLevel.

(** The geometry of the control block.  [inv_small] keeps every sum of
    two slot counts within 32 bits; [inv_cong] is the congruence of the
    fill level with [mWriteOffset - mReadOffset]: the two are equal
    unless the ring is full or the writer has wrapped past the
    readers. *)
Record Inv (s : IasAvbVideoRingBufferShm) : Prop := {
  inv_small : 2 * mNumBuffers s <= 2 ^ 32;
  inv_num : 0 < mNumBuffers s;
  inv_read : 0 <= mReadOffset s < mNumBuffers s;
  inv_write : 0 <= mWriteOffset s < mNumBuffers s;
  inv_level : 0 <= mBufferLevel s <= mNumBuffers s;
  inv_cong : mBufferLevel s = mWriteOffset s - mReadOffset s
             ∨ mBufferLevel s
               = mWriteOffset s - mReadOffset s + mNumBuffers s;
  inv_allowed : 0 <= mAllowedToWrite s
                ∧ mWriteOffset s + mAllowedToWrite s <= mNumBuffers s
                ∧ mBufferLevel s + mAllowedToWrite s <= mNumBuffers s;
  inv_readers : Forall (reader_ok (mNumBuffers s) (mReadOffset s)
                          (mBufferLevel s)) (mReaders s);
  inv_initialized : mInitialized s = true
}.

(** Free entries hold nothing: invariant 6 of the data model. *)
Definition free_zero (l : list RingBufferReader) : Prop :=
  Forall (λ r, pid r = 0 → r = noReader) l.

(** ** Scenarios *)

Definition at_sec (sec : Z) : timespec := {| tv_sec := sec; tv_nsec := 0 |}.

Definition at_ms (ms : Z) : timespec :=
  {| tv_sec := ms / 1000; tv_nsec := (ms mod 1000) * 1000000 |}.

(** A ring of [numBuffers] one-byte slots, freshly initialised. *)
Definition ring (numBuffers : Z) : IasAvbVideoRingBufferShm :=
  (init 1 numBuffers 1 false constructed).2.

(** A borrow followed by its commit, as one process makes them. *)
Definition transfer (access : IasRingBufferAccess) (p request commit : Z)
  : list Call :=
  [ callBeginAccess access p (Some 0) (Some request) (at_sec 1);
    callEndAccess access p 0 commit (at_sec 1) (at_sec 1) ].

(** The writer fills a ring of four slots that nobody reads. *)
Definition fill4 : list Call :=
  transfer eIasRingBufferAccessWrite 0 4 4.

(** Ring of eight slots, reader 7: four slots written and read, four
    more written.  The write offset has wrapped to [0], the read offset
    is [4]. *)
Definition wrapped8 : list Call :=
  callAddReader 7 (at_sec 1)
  :: transfer eIasRingBufferAccessWrite 0 4 4
  ++ transfer eIasRingBufferAccessRead 7 4 4
  ++ transfer eIasRingBufferAccessWrite 0 4 4.

(** Ring of three thousand million slots, reader 7: two thousand million
    slots written and read. *)
Definition drained3G : list Call :=
  callAddReader 7 (at_sec 1)
  :: transfer eIasRingBufferAccessWrite 0 3000000000 2000000000
  ++ transfer eIasRingBufferAccessRead 7 2000000000 2000000000.

(** After [drained3G] the writer goes on to the physical end, wraps and
    writes fifteen hundred million slots more: the reader is at
    [2000000000], the writer at [1500000000] behind it. *)
Definition lapped3G : list Call :=
  drained3G
  ++ transfer eIasRingBufferAccessWrite 0 1000000000 1000000000
  ++ transfer eIasRingBufferAccessWrite 0 1500000000 1500000000.

(** After [drained3G] the writer asks for the whole ring. *)
Definition overdrawn3G : list Call :=
  drained3G
  ++ [ callBeginAccess eIasRingBufferAccessWrite 0 (Some 0)
         (Some 3000000000) (at_sec 1) ].

(** After [overdrawn3G] the writer commits the whole ring. *)
Definition overrun3G : list Call :=
  overdrawn3G
  ++ [ callEndAccess eIasRingBufferAccessWrite 0 0 3000000000
         (at_sec 1) (at_sec 1) ].

(** Reader 7 is registered at 1 s. *)
Definition once7 : list Call := [ callAddReader 7 (at_sec 1) ].

(** Reader 7 is registered twice, at 1 s and at 4 s; the writer then
    opens a borrow. *)
Definition twice7 : list Call :=
  [ callAddReader 7 (at_sec 1); callAddReader 7 (at_sec 4);
    callBeginAccess eIasRingBufferAccessWrite 0 (Some 0) (Some 0)
      (at_sec 4) ].

(** The writer borrows six of eight slots; [init] is then called again
    with four slots while the borrow is in flight. *)
Definition regrown : IasAvbVideoRingBufferShm :=
  (init 1 4 1 false
     (ba_state (beginAccess eIasRingBufferAccessWrite 0 (Some 0) (Some 6)
                  (at_sec 1) (ring 8)))).2.

(** The state a sequence of calls leaves, [constructed] if one of them
    stays blocked. *)
Definition after (cs : list Call) (s : IasAvbVideoRingBufferShm)
  : IasAvbVideoRingBufferShm :=
  default constructed (calls cs s).

(** The grant of a read borrow as the specification computes it, in
    unbounded arithmetic: the request, reduced to the level of the
    reader, then to the physical end of the array. *)
Definition specReaderLevel (s : IasAvbVideoRingBufferShm)
    (r : RingBufferReader) : Z :=
  if decide (mWriteOffset s >= offset r)
  then mWriteOffset s - offset r
  else mNumBuffers s - offset r + mWriteOffset s.

Definition specReadGrant (s : IasAvbVideoRingBufferShm)
    (r : RingBufferReader) (request : Z) : Z :=
  let n := Z.min request (specReaderLevel s r) in
  if decide (offset r + n >= mNumBuffers s)
  then mNumBuffers s - offset r else n.

(** A wake-up that sends the writer back to sleep: no timeout, no
    failure, and the ring still fuller than [level]. *)
Definition spurious (level : Z) (e : WaitEvent) : Prop :=
  cndres e = eIasOk ∧ wake_mBufferLevel e > level.

(** The arguments that [waitWrite] refuses. *)
Definition waitWrite_refused (numBuffers timeout_ms : Z)
    (s : IasAvbVideoRingBufferShm) : Prop :=
  numBuffers = 0 ∨ numBuffers > mNumBuffers s ∨ timeout_ms = 0.

#[global] Instance is_u32_dec z : Decision (is_u32 z).
Proof. unfold is_u32. apply _. Defined.

#[global] Instance legal_dec c s : Decision (legal c s).
Proof. destruct c as [| | | ? ? ? [n|] ?| | |]; simpl; apply _. Defined.

(** Every call of a sequence is [legal] in the state it is made in, and
    none stays blocked. *)
Fixpoint legal_calls (cs : list Call) (s : IasAvbVideoRingBufferShm) : Prop :=
  match cs with
  | [] => True
  | c :: cs => legal c s ∧ match call c s with
                           | Some s => legal_calls cs s
                           | None => False
                           end
  end.

#[global] Instance legal_calls_dec cs s : Decision (legal_calls cs s).
Proof.
  revert s. induction cs as [|c cs IH]; simpl; intros s; [apply _|].
  destruct (call c s); apply _.
Defined.

(** The ids of the table, entry by entry. *)
Definition pids (l : list RingBufferReader) : list Z := pid <$> l.

(** The entry a reader pointer points to, if any, is live. *)
Definition live_at (l : list RingBufferReader) (reader : nat) : Prop :=
  ∀ r, l !! reader = Some r → live r.

(** ** Predicates of the further properties *)

(** What no call after [init] writes: the geometry, the flag
    [mInitialized], [mShared] and the unused [mReadInProgress]. *)
Definition geometry (s : IasAvbVideoRingBufferShm)
  : Z * Z * Z * bool * bool * bool :=
  (mBufferSize s, mNumBuffers s, mDataBuf s, mInitialized s, mShared s,
   mReadInProgress s).

(** The call is an [endAccess] for write access. *)
Definition isWriteEnd (c : Call) : Prop :=
  match c with
  | callEndAccess eIasRingBufferAccessWrite _ _ _ _ _ => True
  | _ => False
  end.

#[global] Instance isWriteEnd_dec c : Decision (isWriteEnd c).
Proof. destruct c as [| | | |[] ? ? ? ? ?| |]; simpl; apply _. Defined.

(** Reader 7 is registered in a ring of four slots and the writer
    borrows all four. *)
Definition lent4 : list Call :=
  [ callAddReader 7 (at_sec 1);
    callBeginAccess eIasRingBufferAccessWrite 0 (Some 0) (Some 4)
      (at_sec 1) ].

(** The first scenario of the specification as far as the writer's
    commit: reader 7 is registered and the writer fills the ring of
    four slots. *)
Definition jammed4 : list Call :=
  lent4
  ++ [ callEndAccess eIasRingBufferAccessWrite 0 0 4 (at_sec 1) (at_sec 1) ].

(** A ring that is full while no live reader is ahead of the read
    offset or holds a grant, and the writer holds none. *)
Definition jammed (s : IasAvbVideoRingBufferShm) : Prop :=
  mBufferLevel s = mNumBuffers s
  ∧ mAllowedToWrite s = 0
  ∧ Forall (λ r, live r → offset r = mReadOffset s ∧ allowedToRead r = 0)
      (mReaders s).

#[global] Instance jammed_dec s : Decision (jammed s).
Proof. unfold jammed, live. apply _. Defined.

(** Every live reader other than the one at [reader] stands at the
    physical end of the array, and [numBuffers] more slots take that
    one there too. *)
Definition all_at_end (s : IasAvbVideoRingBufferShm) (reader : nat)
    (numBuffers : Z) : Prop :=
  offset (readerAt s reader) + numBuffers = mNumBuffers s
  ∧ ∀ j e, j ≠ reader → mReaders s !! j = Some e → live e →
           offset e = mNumBuffers s.

(** A wake-up that sends the reader at [reader] back to sleep: no
    timeout, no failure, and with the write offset seen on waking the
    reader still has fewer than [numBuffers] slots to read. *)
Definition starving (s : IasAvbVideoRingBufferShm) (reader : nat)
    (numBuffers : Z) (e : WaitEvent) : Prop :=
  cndres e = eIasOk
  ∧ calculateReaderBufferLevel (set_mWriteOffset s (wake_mWriteOffset e))
      reader < numBuffers.

(** The arguments that [waitRead] refuses. *)
Definition waitRead_refused (p numBuffers timeout_ms : Z)
    (s : IasAvbVideoRingBufferShm) : Prop :=
  findReader p s = None ∨ numBuffers > mNumBuffers s ∨ numBuffers = 0
  ∨ timeout_ms = 0.

(** Reader 7 of an empty ring waits for three slots and times out
    after 100 ms. *)
Definition waited7 : list Call :=
  [ callAddReader 7 (at_sec 1);
    callWaitRead 7 3 100 (at_sec 1)
      [ {| cndres := eIasTimeout; wake_mBufferLevel := 0;
           wake_mWriteOffset := 0; wake_ts := at_ms 1100 |} ] ].

(** Reader 7 of an empty ring of four slots waits for three: the first
    wake-up finds nothing written, the second is a timeout by which the
    writer has reached offset 3. *)
Definition wakes7 : list WaitEvent :=
  [ {| cndres := eIasOk; wake_mBufferLevel := 0; wake_mWriteOffset := 0;
       wake_ts := at_ms 1050 |};
    {| cndres := eIasTimeout; wake_mBufferLevel := 3; wake_mWriteOffset := 3;
       wake_ts := at_ms 1100 |} ].

(* ================================================================== *)
(** * Properties *)

Ltac Zify.zify_post_hook ::= Z.to_euclidean_division_equations.

(** Splits on the condition of every [if] of the goal and the context. *)
Ltac split_ifs :=
  repeat match goal with
         | |- context [if ?b then _ else _] => destruct b eqn:?
         | H : context [if ?b then _ else _] |- _ => destruct b eqn:?
         end.

Lemma u32_id z : is_u32 z → u32 z = z.
Proof. unfold is_u32, u32. intros. apply Z.mod_small. lia. Qed.

Lemma u32_range z : is_u32 (u32 z).
Proof. unfold is_u32, u32. lia. Qed.

Lemma timespec_ns_range ts : is_u64 (timespec_ns ts).
Proof. unfold is_u64, timespec_ns, u64. lia. Qed.

(** ** Looking a reader up *)

Lemma findReader_Some p s reader :
  findReader p s = Some reader →
  ∃ r, mReaders s !! reader = Some r ∧ pid r = p ∧ readerAt s reader = r.
Proof.
  unfold findReader, readerAt. intros H.
  apply fmap_Some in H as [[i r] [H ->]].
  apply list_find_Some in H as (Hi & Hp & _).
  exists r. simpl. by rewrite Hi.
Qed.

Lemma findReader_None p s :
  findReader p s = None ↔ Forall (λ r, pid r ≠ p) (mReaders s).
Proof.
  unfold findReader. rewrite fmap_None. apply list_find_None.
Qed.

(** ** The write side of [endAccess] outside a borrow *)

(** C9: [endAccess] for write access with no write borrow in flight
    returns [eIasRingBuffOk] and leaves the whole control block as it
    was, whatever the count. *)
Theorem endAccess_write_without_borrow
    (s : IasAvbVideoRingBufferShm) (p offset_a numBuffers : Z)
    (tsAccess tsPurge : timespec) :
  mWriteInProgress s = false →
  endAccess eIasRingBufferAccessWrite p offset_a numBuffers tsAccess tsPurge s
  = (eIasRingBuffOk, s).
Proof. intros H. unfold endAccess. by rewrite H. Qed.

Lemma endAccess_write_without_borrow_witness :
  mWriteInProgress (ring 4) = false
  ∧ endAccess eIasRingBufferAccessWrite 0 3 9 (at_sec 1) (at_sec 1) (ring 4)
    = (eIasRingBuffOk, ring 4).
Proof.
  split; [reflexivity|].
  apply (endAccess_write_without_borrow (ring 4) 0 3 9). reflexivity.
Defined.

(** ** The [offset] argument of [endAccess] *)

(** C10: [endAccess] never looks at its [offset] argument: two calls
    that differ in nothing else return the same result and leave the
    same control block, so the offset is not compared with the one
    [beginAccess] granted. *)
Theorem endAccess_ignores_offset
    (access : IasRingBufferAccess) (p offset1 offset2 numBuffers : Z)
    (tsAccess tsPurge : timespec) (s : IasAvbVideoRingBufferShm) :
  endAccess access p offset1 numBuffers tsAccess tsPurge s
  = endAccess access p offset2 numBuffers tsAccess tsPurge s.
Proof. reflexivity. Qed.

(** ** Calls before [init] *)

(** C4, as stated, fails: on a fresh object [addReader] registers the
    reader and returns [eIasRingBuffOk], the write side of [endAccess]
    returns [eIasRingBuffOk] too, [removeReader], the read side of
    [endAccess], [waitRead] and [waitWrite] answer
    [eIasRingBuffInvalidParam], and so do [beginAccess] and
    [updateAvailable] when the access is undefined or a pointer null. *)
Lemma uninitialized_calls_unreported :
  mInitialized constructed = false
  ∧ (addReader 1 (at_sec 1) constructed).1 = eIasRingBuffOk
  ∧ (removeReader 1 constructed).1 = eIasRingBuffInvalidParam
  ∧ (endAccess eIasRingBufferAccessWrite 1 0 0 (at_sec 1) (at_sec 1)
       constructed).1 = eIasRingBuffOk
  ∧ (endAccess eIasRingBufferAccessRead 1 0 0 (at_sec 1) (at_sec 1)
       constructed).1 = eIasRingBuffInvalidParam
  ∧ fst <$> waitRead 1 1 1 (at_sec 1) [] constructed
    = Some eIasRingBuffInvalidParam
  ∧ fst <$> waitWrite 1 1 [] constructed = Some eIasRingBuffInvalidParam
  ∧ ba_result (beginAccess eIasRingBufferAccessUndef 1 (Some 0) (Some 1)
                 (at_sec 1) constructed) = eIasRingBuffInvalidParam
  ∧ (updateAvailable eIasRingBufferAccessWrite 1 None constructed).1
    = eIasRingBuffInvalidParam.
Proof. repeat split. Qed.

(** C4, amended: before [init] has succeeded, [updateAvailable] and
    [beginAccess] called with a defined access and valid pointers return
    [eIasRingBuffNotInitialized] and change nothing. *)
Theorem uninitialized_reported
    (s : IasAvbVideoRingBufferShm) (access : IasRingBufferAccess)
    (p out off n : Z) (ts : timespec) :
  mInitialized s = false →
  access ≠ eIasRingBufferAccessUndef →
  updateAvailable access p (Some out) s
  = (eIasRingBuffNotInitialized, Some out)
  ∧ beginAccess access p (Some off) (Some n) ts s
    = {| ba_result := eIasRingBuffNotInitialized; ba_offset := Some off;
         ba_numBuffers := Some n; ba_state := s |}.
Proof.
  intros Hi Ha. unfold updateAvailable, beginAccess.
  destruct access; [done| |]; by rewrite Hi.
Qed.

Lemma uninitialized_reported_witness :
  updateAvailable eIasRingBufferAccessRead 7 (Some 5) constructed
  = (eIasRingBuffNotInitialized, Some 5)
  ∧ beginAccess eIasRingBufferAccessRead 7 (Some 2) (Some 3) (at_sec 1)
      constructed
    = {| ba_result := eIasRingBuffNotInitialized; ba_offset := Some 2;
         ba_numBuffers := Some 3; ba_state := constructed |}.
Proof.
  apply (uninitialized_reported constructed eIasRingBufferAccessRead
           7 5 2 3 (at_sec 1)).
  - reflexivity.
  - discriminate.
Defined.

(** ** [waitWrite] *)

Lemma waitWrite_loop_ready events s :
  mBufferLevel s <= mWriteWaitLevel s →
  waitWrite_loop events s = Some (eIasRingBuffOk, s).
Proof.
  intros H. destruct events; simpl;
    destruct (Z.gtb_spec (mBufferLevel s) (mWriteWaitLevel s)); done || lia.
Qed.

Lemma waitWrite_loop_wake e events s :
  mBufferLevel s > mWriteWaitLevel s →
  waitWrite_loop (e :: events) s
  = let s' := set_mBufferLevel s (wake_mBufferLevel e) in
    match cndres e with
    | eIasOk => waitWrite_loop events s'
    | eIasTimeout =>
        Some (if wake_mBufferLevel e >? mWriteWaitLevel s
              then eIasRingBuffTimeOut else eIasRingBuffOk, s')
    | eIasCondVarFailed => Some (eIasRingBuffCondWaitFailed, s')
    end.
Proof.
  intros H. simpl.
  destruct (Z.gtb_spec (mBufferLevel s) (mWriteWaitLevel s)); done || lia.
Qed.

(** Spurious wake-ups change nothing but the level the writer sees. *)
Lemma waitWrite_loop_spurious oks events s :
  mBufferLevel s > mWriteWaitLevel s →
  Forall (spurious (mWriteWaitLevel s)) oks →
  ∃ level, level > mWriteWaitLevel s
    ∧ waitWrite_loop (oks ++ events) s
      = waitWrite_loop events (set_mBufferLevel s level).
Proof.
  intros Hs Hoks. revert s Hs Hoks.
  induction oks as [|e oks IH]; intros s Hs Hoks.
  - exists (mBufferLevel s). split; [done|]. by destruct s.
  - inversion Hoks as [|e' oks' [He Hl] Hoks']; subst.
    rewrite <- app_comm_cons, waitWrite_loop_wake by done. simpl. rewrite He.
    destruct (IH (set_mBufferLevel s (wake_mBufferLevel e)))
      as (level & Hlevel & ->); [done..|].
    exists level. split; [done|]. by destruct s.
Qed.

Lemma waitWrite_loop_level events s r s' :
  waitWrite_loop events s = Some (r, s') →
  mWriteWaitLevel s' = mWriteWaitLevel s ∧ r ≠ eIasRingBuffInvalidParam.
Proof.
  revert s. induction events as [|e events IH]; intros s; simpl.
  - destruct (_ >? _); [done|]. by intros [= <- <-].
  - destruct (mBufferLevel s >? mWriteWaitLevel s);
      [|by intros [= <- <-]].
    destruct (cndres e).
    + intros H. by apply IH in H as [-> ?].
    + destruct (_ >? _); by intros [= <- <-].
    + by intros [= <- <-].
Qed.

Lemma waitWrite_refused_spec numBuffers timeout_ms s :
  (numBuffers >? mNumBuffers s) || (numBuffers =? 0) || (timeout_ms =? 0)
  = true ↔ waitWrite_refused numBuffers timeout_ms s.
Proof.
  unfold waitWrite_refused.
  rewrite !orb_true_iff, Z.gtb_gt, !Z.eqb_eq. tauto.
Qed.

(** C7: [waitWrite] returns [eIasRingBuffInvalidParam] exactly when
    [numBuffers] is [0] or above [mNumBuffers] or [timeout_ms] is [0].
    Otherwise it sets [mWriteWaitLevel] to [mNumBuffers - numBuffers];
    it returns [eIasRingBuffOk] at once when the ring is no fuller than
    that; and when, after any number of spurious wake-ups, the wait
    reports a timeout it returns [eIasRingBuffTimeOut] if the level seen
    then is still above [mWriteWaitLevel] and [eIasRingBuffOk] if not,
    while any other failure of the wait gives
    [eIasRingBuffCondWaitFailed]. *)
Theorem waitWrite_results
    (numBuffers timeout_ms : Z) (s : IasAvbVideoRingBufferShm) :
  is_u32 (mNumBuffers s) →
  is_u32 numBuffers →
  (∀ events,
     (∃ s', waitWrite numBuffers timeout_ms events s
            = Some (eIasRingBuffInvalidParam, s'))
     ↔ waitWrite_refused numBuffers timeout_ms s)
  ∧ (¬ waitWrite_refused numBuffers timeout_ms s →
     let level := mNumBuffers s - numBuffers in
     let waiting := set_mWriteWaitLevel s level in
     (∀ events r s',
        waitWrite numBuffers timeout_ms events s = Some (r, s') →
        mWriteWaitLevel s' = level)
     ∧ (∀ events,
          mBufferLevel s <= level →
          waitWrite numBuffers timeout_ms events s
          = Some (eIasRingBuffOk, waiting))
     ∧ (∀ oks e rest,
          mBufferLevel s > level →
          Forall (spurious level) oks →
          let woken := set_mBufferLevel waiting (wake_mBufferLevel e) in
          (cndres e = eIasTimeout →
           waitWrite numBuffers timeout_ms (oks ++ e :: rest) s
           = Some (if decide (wake_mBufferLevel e > level)
                   then eIasRingBuffTimeOut else eIasRingBuffOk, woken))
          ∧ (cndres e = eIasCondVarFailed →
             waitWrite numBuffers timeout_ms (oks ++ e :: rest) s
             = Some (eIasRingBuffCondWaitFailed, woken)))).
Proof.
  intros HN Hn. unfold waitWrite.
  pose proof (waitWrite_refused_spec numBuffers timeout_ms s) as Hspec.
  destruct ((numBuffers >? mNumBuffers s) || (numBuffers =? 0)
            || (timeout_ms =? 0)) eqn:Hb.
  - split; [|intros []; by apply Hspec].
    intros events. split; [intros _; by apply Hspec|eauto].
  - assert (Hok : ¬ waitWrite_refused numBuffers timeout_ms s)
      by (rewrite <- Hspec; congruence).
    assert (Hlevel : u32 (mNumBuffers s - numBuffers)
                     = mNumBuffers s - numBuffers).
    { apply u32_id. unfold waitWrite_refused, is_u32 in *. lia. }
    rewrite Hlevel. split.
    { intros events. split; [|done].
      intros [s' H]. by apply waitWrite_loop_level in H as [_ ?]. }
    intros _. simpl. split_and!.
    + intros events r s' H. by apply waitWrite_loop_level in H as [-> _].
    + intros events H. by apply waitWrite_loop_ready.
    + intros oks e rest Hfull Hoks.
      destruct (waitWrite_loop_spurious oks (e :: rest)
                  (set_mWriteWaitLevel s (mNumBuffers s - numBuffers)))
        as (level & Hl & ->); [done..|].
      simpl in Hl. rewrite waitWrite_loop_wake by (simpl; lia). simpl.
      split; intros ->; [|done].
      destruct (Z.gtb_spec (wake_mBufferLevel e)
                  (mNumBuffers s - numBuffers)); case_decide; done || lia.
Qed.

(** The fifth scenario of the specification: the ring of four slots is
    full, nobody drains it, and [waitWrite(1, 100)] times out. *)
Lemma waitWrite_results_witness :
  waitWrite 1 100
    [ {| cndres := eIasTimeout; wake_mBufferLevel := 4;
         wake_mWriteOffset := 0; wake_ts := at_sec 2 |} ]
    (after fill4 (ring 4))
  = Some (eIasRingBuffTimeOut,
          set_mWriteWaitLevel (after fill4 (ring 4)) 3).
Proof.
  destruct (waitWrite_results 1 100 (after fill4 (ring 4)))
    as [_ H]; [by vm_compute..|].
  destruct H as (_ & _ & H); [unfold waitWrite_refused; simpl; lia|].
  destruct (H [] {| cndres := eIasTimeout; wake_mBufferLevel := 4;
                    wake_mWriteOffset := 0; wake_ts := at_sec 2 |} [])
    as [Ht _]; [vm_compute; reflexivity|constructor|].
  exact (Ht eq_refl).
Defined.

(** ** Reachable control blocks *)

Lemma reachable_ring numBuffers :
  is_u32 numBuffers → numBuffers ≠ 0 → reachable (ring numBuffers).
Proof.
  intros Hu Hn. apply (reachable_init 1 numBuffers 1 false); [done|].
  unfold ring, init. simpl.
  destruct (Z.eqb_spec numBuffers 0); [done|]. by rewrite orb_false_r.
Qed.

Lemma reachable_calls cs s s' :
  reachable s → legal_calls cs s → calls cs s = Some s' → reachable s'.
Proof.
  revert s. induction cs as [|c cs IH]; simpl; intros s Hs Hl Hc.
  - by injection Hc as <-.
  - destruct Hl as [Hl Hcs]. destruct (call c s) as [s1|] eqn:E; [|done].
    eapply IH; [|done..]. by eapply reachable_call.
Qed.

Lemma reachable_after cs n :
  is_u32 n → n ≠ 0 → legal_calls cs (ring n) →
  is_Some (calls cs (ring n)) → reachable (after cs (ring n)).
Proof.
  intros Hu Hn Hl [s' Hs']. unfold after. rewrite Hs'. simpl.
  eapply reachable_calls; [by apply reachable_ring|done..].
Qed.

Lemma reachable_run cs n :
  bool_decide (is_u32 n ∧ n ≠ 0 ∧ legal_calls cs (ring n)
               ∧ is_Some (calls cs (ring n))) →
  reachable (after cs (ring n)).
Proof.
  intros (Hu & Hn & Hl & Hs)%bool_decide_unpack. by apply reachable_after.
Qed.

Lemma reachable_fill4 : reachable (after fill4 (ring 4)).
Proof. by apply reachable_run; vm_compute. Qed.

Lemma reachable_wrapped8 : reachable (after wrapped8 (ring 8)).
Proof. by apply reachable_run; vm_compute. Qed.

Lemma reachable_lapped3G : reachable (after lapped3G (ring 3000000000)).
Proof. by apply reachable_run; vm_compute. Qed.

Lemma reachable_overdrawn3G : reachable (after overdrawn3G (ring 3000000000)).
Proof. by apply reachable_run; vm_compute. Qed.

Lemma reachable_twice7 : reachable (after twice7 (ring 4)).
Proof. by apply reachable_run; vm_compute. Qed.

(** ** The grant of a write borrow *)

(** The first two steps of [beginWrite] reduce the request: to the free
    space, then to the physical end.  The third does not compare: with
    the writer behind the read offset the grant is
    [mReadOffset - mWriteOffset - 1] whatever was asked. *)
Lemma beginWrite_behind_reader numBuffers ts s :
  mWriteOffset s < mReadOffset s →
  ba_numBuffers (beginWrite numBuffers ts s)
  = Some (u32 (u32 (mReadOffset s - mWriteOffset s) - 1)).
Proof.
  intros H. unfold beginWrite. simpl.
  by destruct (Z.ltb_spec (mWriteOffset s) (mReadOffset s)); [|lia].
Qed.

Lemma beginWrite_ahead_of_reader numBuffers ts s :
  is_u32 numBuffers → is_u32 (mNumBuffers s) → is_u32 (mWriteOffset s) →
  mWriteOffset s <= mNumBuffers s →
  mReadOffset s <= mWriteOffset s →
  ∃ n, ba_numBuffers (beginWrite numBuffers ts s) = Some n
       ∧ 0 <= n <= numBuffers.
Proof.
  intros Hn HN Hw HwN Hr. unfold beginWrite. simpl.
  eexists. split; [done|].
  unfold is_u32, u32 in *. split_ifs; lia.
Qed.

(** C2, on the code: in a ring of eight slots whose write offset has
    wrapped to [0] while the read offset is [4], a writer that asks for
    one slot is granted three.  The third step of the write side of
    [beginAccess] assigns [mReadOffset - mWriteOffset - 1] where the
    first two compare before they reduce. *)
Theorem beginAccess_write_grant_exceeds_request :
  let s := after wrapped8 (ring 8) in
  let b := beginAccess eIasRingBufferAccessWrite 0 (Some 0) (Some 1)
             (at_sec 2) s in
  reachable s
  ∧ (mNumBuffers s, mReadOffset s, mWriteOffset s, mBufferLevel s)
    = (8, 4, 0, 4)
  ∧ ba_result b = eIasRingBuffOk
  ∧ ba_offset b = Some 0
  ∧ ba_numBuffers b = Some 3
  ∧ mAllowedToWrite (ba_state b) = 3.
Proof. split; [apply reachable_wrapped8|]. by vm_compute. Qed.

(** ** The geometry check of [endAccess] *)

(** What the write side of [endAccess] does when the count passes the
    first check and fails the second: the early return comes after
    [mAllowedToWrite] has been cleared. *)
Lemma endAccess_write_beyond_end p offset_a numBuffers tsAccess tsPurge s :
  mWriteInProgress s = true →
  numBuffers <= mAllowedToWrite s →
  u32 (mWriteOffset s + numBuffers) > mNumBuffers s →
  endAccess eIasRingBufferAccessWrite p offset_a numBuffers tsAccess tsPurge s
  = (eIasRingBuffInvalidParam, set_mAllowedToWrite s 0).
Proof.
  intros Hw Hn Hg. unfold endAccess, endWrite. rewrite Hw. simpl.
  destruct (Z.gtb_spec numBuffers (mAllowedToWrite s)); [lia|].
  destruct (Z.eqb_spec (u32 (mWriteOffset s + numBuffers)) (mNumBuffers s));
    [lia|].
  by destruct (Z.gtb_spec (u32 (mWriteOffset s + numBuffers)) (mNumBuffers s));
    [|lia].
Qed.

(** C3, on the code: the refusal clears [mAllowedToWrite].  First
    input: after [overdrawn3G] the writer holds a grant of 3000000000
    slots at offset 2000000000 of a ring of 3000000000 (the clamp to
    the physical end was skipped, its 32-bit sum having wrapped) and
    commits 1500000000.
    Second input: the writer holds six slots of a ring that [init] has
    meanwhile set to four, and commits five.  Both calls return
    [eIasRingBuffInvalidParam]; the borrow stays in flight and the
    offsets and the level stay, but [mAllowedToWrite] is [0]
    afterwards. *)
Theorem endAccess_write_refusal_clears_grant :
  let s := after overdrawn3G (ring 3000000000) in
  let r := endAccess eIasRingBufferAccessWrite 0 2000000000 1500000000
             (at_sec 2) (at_sec 2) s in
  let r' := endAccess eIasRingBufferAccessWrite 0 0 5 (at_sec 2) (at_sec 2)
              regrown in
  (reachable s
   ∧ (mNumBuffers s, mWriteOffset s, mAllowedToWrite s, mWriteInProgress s)
     = (3000000000, 2000000000, 3000000000, true)
   ∧ r = (eIasRingBuffInvalidParam, set_mAllowedToWrite s 0)
   ∧ mAllowedToWrite r.2 = 0)
  ∧ ((mNumBuffers regrown, mWriteOffset regrown, mAllowedToWrite regrown,
      mWriteInProgress regrown) = (4, 0, 6, true)
     ∧ r' = (eIasRingBuffInvalidParam, set_mAllowedToWrite regrown 0)
     ∧ mAllowedToWrite r'.2 = 0).
Proof.
  split; [split; [apply reachable_overdrawn3G|]|]; by vm_compute.
Qed.

Lemma reachable_once7 : reachable (after once7 (ring 4)).
Proof. by apply reachable_run; vm_compute. Qed.

(** ** What the operations do to the reader table *)

Lemma pids_alter f i l :
  (∀ r, pid (f r) = pid r) → pids (alter f i l) = pids l.
Proof.
  intros Hf. unfold pids. apply list_eq. intros j.
  rewrite !list_lookup_fmap. destruct (decide (i = j)) as [->|].
  - rewrite list_lookup_alter_eq. destruct (l !! j); simpl; by rewrite ?Hf.
  - by rewrite list_lookup_alter_ne.
Qed.

Lemma pids_resetOffset l : pids (resetOffset <$> l) = pids l.
Proof.
  unfold pids. rewrite <- list_fmap_compose. apply list_fmap_ext.
  intros _ r _. unfold resetOffset. simpl. by destruct (pid r =? 0).
Qed.

Lemma live_at_pids l l' i : pids l' = pids l → live_at l i → live_at l' i.
Proof.
  unfold live_at, live, pids. intros Hp Hl r' Hr'.
  assert (H : (pid <$> l') !! i = Some (pid r'))
    by (by rewrite list_lookup_fmap, Hr').
  rewrite Hp, list_lookup_fmap in H.
  destruct (l !! i) as [r|] eqn:E; [|done].
  injection H as <-. by apply Hl.
Qed.

Lemma findReader_live_at p s reader :
  p ≠ 0 → findReader p s = Some reader → live_at (mReaders s) reader.
Proof.
  intros Hp (r & Hr & Hpid & _)%findReader_Some r' Hr'.
  unfold live. congruence.
Qed.

Lemma free_zero_alter f i l :
  (∀ r, pid (f r) = pid r) → live_at l i →
  free_zero l → free_zero (alter f i l).
Proof.
  intros Hf Hl Hz. apply Forall_alter; [done|]. intros r Hr _ Hz'.
  destruct (Hl r Hr). by rewrite <- Hf.
Qed.

Lemma free_zero_fmap f l :
  (∀ r, f r = r ∨ f r = noReader) → free_zero l → free_zero (f <$> l).
Proof.
  intros Hf H. apply Forall_fmap. eapply List.Forall_impl; [|exact H].
  intros r Hr. simpl. destruct (Hf r) as [-> | ->]; done.
Qed.

Lemma clearEntry_cases p r : clearEntry p r = r ∨ clearEntry p r = noReader.
Proof. unfold clearEntry. destruct (pid r =? p); auto. Qed.

Lemma purgeEntry_cases now r : purgeEntry now r = r ∨ purgeEntry now r = noReader.
Proof. unfold purgeEntry. split_ifs; auto. Qed.

Lemma free_zero_resetOffset l : free_zero l → free_zero (resetOffset <$> l).
Proof.
  intros H. apply Forall_fmap. eapply List.Forall_impl; [|exact H].
  intros r Hr. simpl. unfold resetOffset.
  destruct (Z.eqb_spec (pid r) 0); [done|]. simpl. done.
Qed.

Lemma updateSmallerReaderOffset_readers s :
  mReaders (updateSmallerReaderOffset s).2 = mReaders s
  ∨ mReaders (updateSmallerReaderOffset s).2 = resetOffset <$> mReaders s.
Proof. unfold updateSmallerReaderOffset. split_ifs; simpl; auto. Qed.

Lemma aggregateReaderOffset_readers s :
  mReaders (aggregateReaderOffset s) = mReaders (updateSmallerReaderOffset s).2.
Proof.
  unfold aggregateReaderOffset.
  destruct (updateSmallerReaderOffset s) as [m s1]. simpl.
  split_ifs; done.
Qed.

Lemma aggregateReaderOffset_pids s :
  pids (mReaders (aggregateReaderOffset s)) = pids (mReaders s).
Proof.
  rewrite aggregateReaderOffset_readers.
  destruct (updateSmallerReaderOffset_readers s) as [-> | ->];
    [done|apply pids_resetOffset].
Qed.

Lemma aggregateReaderOffset_free_zero s :
  free_zero (mReaders s) → free_zero (mReaders (aggregateReaderOffset s)).
Proof.
  rewrite aggregateReaderOffset_readers.
  destruct (updateSmallerReaderOffset_readers s) as [-> | ->];
    [done|apply free_zero_resetOffset].
Qed.

Lemma updateReaderAccess_free_zero ts reader s :
  live_at (mReaders s) reader → free_zero (mReaders s) →
  free_zero (mReaders (updateReaderAccess ts reader s)).
Proof. intros. by apply free_zero_alter. Qed.

Lemma waitRead_loop_free_zero reader numBuffers events s r s' :
  live_at (mReaders s) reader → free_zero (mReaders s) →
  waitRead_loop reader numBuffers events s = Some (r, s') →
  free_zero (mReaders s').
Proof.
  revert s. induction events as [|e events IH]; intros s Hl Hz; simpl.
  - destruct (_ <? _); [done|]. by intros [= <- <-].
  - destruct (calculateReaderBufferLevel s reader <? numBuffers);
      [|by intros [= <- <-]].
    assert (free_zero (mReaders (updateReaderAccess (wake_ts e) reader
              (set_mWriteOffset s (wake_mWriteOffset e)))))
      by by apply updateReaderAccess_free_zero.
    destruct (cndres e).
    + apply IH; [|done]. simpl.
      eapply live_at_pids; [|done]. by apply pids_alter.
    + intros [= <- <-]. done.
    + intros [= <- <-]. done.
Qed.

Lemma waitWrite_loop_readers events s r s' :
  waitWrite_loop events s = Some (r, s') → mReaders s' = mReaders s.
Proof.
  revert s. induction events as [|e events IH]; intros s; simpl.
  - destruct (_ >? _); [done|]. by intros [= <- <-].
  - destruct (_ >? _); [|by intros [= <- <-]].
    destruct (cndres e).
    + intros H. by apply IH in H as ->.
    + by intros [= <- <-].
    + by intros [= <- <-].
Qed.

Lemma call_free_zero c s s' :
  legal c s → call c s = Some s' →
  free_zero (mReaders s) → free_zero (mReaders s').
Proof.
  intros Hl Hc Hz. destruct c; simpl in Hc, Hl.
  - (* addReader *)
    injection Hc as <-. unfold addReader.
    destruct (Z.leb_spec p 0); [done|].
    destruct (list_find _ _) as [[i e]|] eqn:E; [|done]. simpl.
    rewrite list_alter_alter_eq.
    apply Forall_alter; [done|]. intros r _ _. simpl. lia.
  - (* removeReader *)
    injection Hc as <-. unfold removeReader.
    destruct (p >? 0); [|done]. simpl.
    apply free_zero_fmap; [|done]. apply clearEntry_cases.
  - by injection Hc as <-.
  - (* beginAccess *)
    injection Hc as <-. destruct Hl as [Hp _]. unfold beginAccess.
    destruct offset_p, numBuffers_p as [n|], access; simpl; try done;
      destruct (mInitialized s); simpl; try done.
    + destruct (findReader p s) as [reader|] eqn:E; [|done].
      pose proof (findReader_live_at p s reader (Hp eq_refl) E).
      unfold beginRead. apply updateReaderAccess_free_zero; simpl.
      * eapply live_at_pids; [|done]. by apply pids_alter.
      * by apply free_zero_alter.
    + by destruct (mWriteInProgress s).
  - (* endAccess *)
    injection Hc as <-. destruct Hl as [Hp _]. unfold endAccess.
    destruct access; [done| |].
    + destruct (findReader p s) as [reader|] eqn:E; [|done].
      pose proof (findReader_live_at p s reader (Hp eq_refl) E).
      unfold endRead. destruct (_ >? _); [done|]. simpl.
      apply updateReaderAccess_free_zero.
      * eapply live_at_pids; [|done]. rewrite aggregateReaderOffset_pids.
        by apply pids_alter.
      * apply aggregateReaderOffset_free_zero. by apply free_zero_alter.
    + destruct (mWriteInProgress s); [|done]. unfold endWrite.
      destruct (_ >? _); [done|]. simpl.
      split_ifs; simpl; try done;
        (apply free_zero_fmap; [apply purgeEntry_cases|done]).
  - (* waitRead *)
    destruct Hl as (Hp & _ & _). unfold waitRead in Hc.
    destruct (findReader p s) as [reader|] eqn:E;
      [|by injection Hc as <-].
    pose proof (findReader_live_at p s reader Hp E).
    destruct (_ || _); [by injection Hc as <-|].
    apply fmap_Some in Hc as [[r s1] [Hc ->]]. simpl.
    eapply waitRead_loop_free_zero; [| |done].
    + simpl. eapply live_at_pids; [by apply pids_alter|].
      by destruct (_ <? _).
    + apply updateReaderAccess_free_zero; by destruct (_ <? _).
  - (* waitWrite *)
    unfold waitWrite in Hc. destruct (_ || _); [by injection Hc as <-|].
    apply fmap_Some in Hc as [[r s1] [Hc ->]]. simpl.
    by apply waitWrite_loop_readers in Hc as ->.
Qed.

Lemma free_zero_constructed : free_zero (mReaders constructed).
Proof. by apply Forall_replicate. Qed.

Lemma reachable_free_zero s : reachable s → free_zero (mReaders s).
Proof.
  induction 1 as [ps n buf sh s Hn Hi|c s s' _ IH Hl Hc].
  - unfold init in Hi. destruct (_ || _); [done|].
    injection Hi as <-. apply free_zero_constructed.
  - by eapply call_free_zero.
Qed.

(** ** Registration followed by deregistration *)

(** C8, as stated, fails: reader 7 is registered, and a second
    [addReader(7)] succeeds; the [removeReader(7)] that follows clears
    both entries, so the table has lost the first registration. *)
Lemma addReader_removeReader_drops_twin :
  let s := after once7 (ring 4) in
  let s1 := (addReader 7 (at_sec 4) s).2 in
  let s2 := (removeReader 7 s1).2 in
  reachable s
  ∧ (addReader 7 (at_sec 4) s).1 = eIasRingBuffOk
  ∧ (removeReader 7 s1).1 = eIasRingBuffOk
  ∧ mReaders s !! 0%nat
    = Some {| pid := 7; offset := 0; lastAccess := 1000000000;
              allowedToRead := 0 |}
  ∧ mReaders s2 !! 0%nat = Some noReader.
Proof. split; [apply reachable_once7|]. by vm_compute. Qed.

Lemma addReader_removeReader_table p ts s s1 r2 s2 :
  free_zero (mReaders s) →
  Forall (λ r, pid r ≠ p) (mReaders s) →
  addReader p ts s = (eIasRingBuffOk, s1) →
  removeReader p s1 = (r2, s2) →
  r2 = eIasRingBuffOk ∧ mReaders s2 = mReaders s.
Proof.
  intros Hz Hp. unfold addReader, removeReader.
  destruct (Z.leb_spec p 0); [done|].
  destruct (list_find _ _) as [[i e]|] eqn:E; [|done].
  apply list_find_Some in E as (Hi & He & _).
  assert (e = noReader) as -> by by eapply (Forall_lookup_1 _ _ _ _ Hz).
  intros [= <-]. destruct (Z.gtb_spec p 0); [|lia]. simpl.
  rewrite list_alter_alter_eq. intros [= <- <-]. simpl. split.
  - replace (existsb _ _) with true; [done|]. symmetry.
    apply existsb_exists. eexists. split.
    + apply list_elem_of_In, list_elem_of_lookup. exists i.
      by rewrite list_lookup_alter_eq, Hi.
    + simpl. apply Z.eqb_refl.
  - apply list_eq. intros j. rewrite list_lookup_fmap.
    destruct (decide (i = j)) as [<-|].
    + rewrite list_lookup_alter_eq, Hi. simpl. unfold clearEntry. simpl.
      by rewrite Z.eqb_refl.
    + rewrite list_lookup_alter_ne by done.
      destruct (mReaders s !! j) as [r|] eqn:Ej; [|done]. simpl.
      unfold clearEntry.
      destruct (Z.eqb_spec (pid r) p); [|done].
      by destruct (Forall_lookup_1 _ _ _ _ Hp Ej).
Qed.

(** C8, amended: in every reachable state in which [id] is not in the
    table yet and [addReader(id)] succeeds, [addReader(id)] followed by
    [removeReader(id)] leaves the reader table, and the whole control
    block, as it was before the two calls. *)
Theorem addReader_removeReader_restores
    (s s1 s2 : IasAvbVideoRingBufferShm) (p : Z) (ts : timespec)
    (r2 : IasVideoRingBufferResult) :
  reachable s →
  Forall (λ r, pid r ≠ p) (mReaders s) →
  addReader p ts s = (eIasRingBuffOk, s1) →
  removeReader p s1 = (r2, s2) →
  r2 = eIasRingBuffOk ∧ mReaders s2 = mReaders s ∧ s2 = s.
Proof.
  intros Hs Hp Ha Hr.
  destruct (addReader_removeReader_table p ts s s1 r2 s2) as [-> Ht];
    [by apply reachable_free_zero|done..|].
  split_and!; [done..|].
  revert Ha Hr Ht. unfold addReader, removeReader.
  destruct (p <=? 0); [done|].
  destruct (list_find _ _) as [[i e]|]; [|done].
  intros [= <-]. destruct (p >? 0); [|done]. simpl.
  intros [= _ <-]. simpl. intros ->. by destruct s.
Qed.

Lemma addReader_removeReader_restores_witness :
  (removeReader 9 (addReader 9 (at_sec 4) (after once7 (ring 4))).2).1
  = eIasRingBuffOk
  ∧ mReaders (removeReader 9
                (addReader 9 (at_sec 4) (after once7 (ring 4))).2).2
    = mReaders (after once7 (ring 4))
  ∧ (removeReader 9 (addReader 9 (at_sec 4) (after once7 (ring 4))).2).2
    = after once7 (ring 4).
Proof.
  apply (addReader_removeReader_restores (after once7 (ring 4))
           (addReader 9 (at_sec 4) (after once7 (ring 4))).2 _ 9 (at_sec 4)).
  - apply reachable_once7.
  - apply (bool_decide_unpack _). vm_compute. exact I.
  - reflexivity.
  - reflexivity.
Defined.

(** ** Eviction of stale readers *)

Lemma purgeEntry_stale now r :
  live r → 0 <= lastAccess r → is_u64 now →
  (purgeEntry now r = noReader ↔ stale now r)
  ∧ (¬ stale now r → purgeEntry now r = r).
Proof.
  unfold live, stale, purgeEntry, is_u64, u64, READER_TIMEOUT_NS, NSEC_PER_SEC.
  intros Hl Ha Hn. destruct (Z.eqb_spec (pid r) 0); [done|].
  destruct (Z.gtb_spec now (lastAccess r)); simpl.
  - destruct (Z.gtb_spec ((now - lastAccess r) mod 2 ^ 64) (2 * 1000000000)).
    + split; [split; [lia|done]|lia].
    + split; [split; [|lia]|done]. intros ->. done.
  - split; [split; [|lia]|done]. intros ->. done.
Qed.

(** A commit of the writer runs the purge on the reader table. *)
Lemma endAccess_write_purges p offset_a numBuffers tsAccess tsPurge s s' :
  mWriteInProgress s = true →
  endAccess eIasRingBufferAccessWrite p offset_a numBuffers tsAccess tsPurge s
  = (eIasRingBuffOk, s') →
  mReaders s' = purgeEntry (timespec_ns tsPurge) <$> mReaders s
  ∧ mInitialized s' = mInitialized s.
Proof.
  intros Hw. unfold endAccess, endWrite. rewrite Hw.
  split_ifs; simpl; try done; by intros [= <-].
Qed.

Lemma findReader_unknown p s :
  findReader p s = None →
  (∀ out, mInitialized s = true →
          updateAvailable eIasRingBufferAccessRead p (Some out) s
          = (eIasRingBuffInvalidParam, Some out))
  ∧ (∀ off n ts, mInitialized s = true →
       beginAccess eIasRingBufferAccessRead p (Some off) (Some n) ts s
       = {| ba_result := eIasRingBuffInvalidParam; ba_offset := Some off;
            ba_numBuffers := Some n; ba_state := s |})
  ∧ (∀ off n ts ts',
       endAccess eIasRingBufferAccessRead p off n ts ts' s
       = (eIasRingBuffInvalidParam, s))
  ∧ (∀ n timeout_ms ts events,
       waitRead p n timeout_ms ts events s
       = Some (eIasRingBuffInvalidParam, s))
  ∧ (removeReader p s).1 = eIasRingBuffInvalidParam.
Proof.
  intros H. split_and!.
  - intros out Hi. unfold updateAvailable. by rewrite Hi, H.
  - intros off n ts Hi. unfold beginAccess. by rewrite Hi, H.
  - intros. unfold endAccess. by rewrite H.
  - intros. unfold waitRead. by rewrite H.
  - unfold removeReader. destruct (p >? 0); [|done]. simpl.
    replace (existsb _ _) with false; [done|]. symmetry.
    apply not_true_is_false. intros (r & Hin & Hr)%existsb_exists.
    apply findReader_None in H.
    apply (proj1 (List.Forall_forall _ _) H) in Hin. lia.
Qed.

(** C6, as stated, fails: reader 7 is registered at 1 s and again at
    4 s; a commit of the writer at 4.5 s zeroes the first entry, stale
    by 3.5 s, and keeps the second; calls with id 7 then find the second
    entry and return [eIasRingBuffOk]. *)
Lemma purge_spares_later_registration :
  let s := after twice7 (ring 4) in
  let s' := (endAccess eIasRingBufferAccessWrite 0 0 0 (at_sec 4)
               (at_ms 4500) s).2 in
  let first := {| pid := 7; offset := 0; lastAccess := 1000000000;
                  allowedToRead := 0 |} in
  reachable s
  ∧ mReaders s !! 0%nat = Some first
  ∧ stale (timespec_ns (at_ms 4500)) first
  ∧ mReaders s' !! 0%nat = Some noReader
  ∧ ba_result (beginAccess eIasRingBufferAccessRead 7 (Some 0) (Some 1)
                 (at_sec 5) s') = eIasRingBuffOk
  ∧ (updateAvailable eIasRingBufferAccessRead 7 (Some 0) s').1
    = eIasRingBuffOk
  ∧ (endAccess eIasRingBufferAccessRead 7 0 0 (at_sec 5) (at_sec 5) s').1
    = eIasRingBuffOk.
Proof.
  split; [apply reachable_twice7|]. split; [reflexivity|].
  split; [by vm_compute|]. by vm_compute.
Qed.

(** C6, amended: when a commit of the writer runs the housekeeping
    step, a live reader entry is zeroed (id, offset, lastAccess and
    allowedToRead all [0]) if and only if [now > lastAccess] and
    [now - lastAccess] exceeds [READER_TIMEOUT_NS], and is left as it
    was otherwise; when every entry that carries the reader's id is
    stale in this sense, so that none survives, the calls made with the
    id afterwards that need the reader in the table return
    [eIasRingBuffInvalidParam]. *)
Theorem purge_evicts_stale_readers
    (s s' : IasAvbVideoRingBufferShm) (p offset_a numBuffers : Z)
    (tsAccess tsPurge : timespec) (reader : nat) (r : RingBufferReader) :
  mInitialized s = true →
  mWriteInProgress s = true →
  endAccess eIasRingBufferAccessWrite p offset_a numBuffers tsAccess tsPurge s
  = (eIasRingBuffOk, s') →
  mReaders s !! reader = Some r →
  live r →
  Forall (λ r', 0 <= lastAccess r') (mReaders s) →
  let now := timespec_ns tsPurge in
  (mReaders s' !! reader = Some noReader ↔ stale now r)
  ∧ (¬ stale now r → mReaders s' !! reader = Some r)
  ∧ (Forall (λ r', pid r' = pid r → stale now r') (mReaders s) →
     findReader (pid r) s' = None
     ∧ (∀ out, updateAvailable eIasRingBufferAccessRead (pid r) (Some out) s'
               = (eIasRingBuffInvalidParam, Some out))
     ∧ (∀ off n ts,
          beginAccess eIasRingBufferAccessRead (pid r) (Some off) (Some n)
            ts s'
          = {| ba_result := eIasRingBuffInvalidParam; ba_offset := Some off;
               ba_numBuffers := Some n; ba_state := s' |})
     ∧ (∀ off n ts ts',
          endAccess eIasRingBufferAccessRead (pid r) off n ts ts' s'
          = (eIasRingBuffInvalidParam, s'))
     ∧ (∀ n timeout_ms ts events,
          waitRead (pid r) n timeout_ms ts events s'
          = Some (eIasRingBuffInvalidParam, s'))
     ∧ (removeReader (pid r) s').1 = eIasRingBuffInvalidParam).
Proof.
  intros Hi Hw He Hr Hl Hla now.
  apply endAccess_write_purges in He as [Hrs Hi']; [|done].
  rewrite Hi in Hi'. fold now in Hrs.
  assert (Hlook : mReaders s' !! reader = Some (purgeEntry now r))
    by (by rewrite Hrs, list_lookup_fmap, Hr).
  destruct (purgeEntry_stale now r) as [Hiff Hkeep];
    [done|by apply (Forall_lookup_1 _ _ _ _ Hla Hr)|apply timespec_ns_range|].
  rewrite Hlook. split_and!.
  - rewrite <- Hiff. split; [by intros [= ->]|by intros ->].
  - intros H. by rewrite Hkeep.
  - intros Hall.
    assert (Hnone : findReader (pid r) s' = None).
    { apply findReader_None. rewrite Hrs. apply Forall_fmap.
      apply Forall_lookup_2. intros j r' Hj. simpl.
      destruct (decide (pid r' = pid r)) as [Heq|Hne].
      - assert (live r') by (unfold live in *; congruence).
        destruct (purgeEntry_stale now r') as [Hiff' _];
          [done|by apply (Forall_lookup_1 _ _ _ _ Hla Hj)
          |apply timespec_ns_range|].
        unfold compose. rewrite (proj2 Hiff'); [done|].
        by apply (Forall_lookup_1 _ _ _ _ Hall Hj).
      - unfold compose.
        destruct (purgeEntry_cases now r') as [-> | ->]; [done|].
        simpl. unfold live in Hl. congruence. }
    destruct (findReader_unknown _ _ Hnone) as (H1 & H2 & H3 & H4 & H5).
    split_and!; [done|intros; by apply H1|intros; by apply H2|done..].
Qed.

(** Reader 7 registered once at 1 s, the writer commits nothing at
    4.5 s: the entry is zeroed and id 7 is unknown afterwards. *)
Lemma purge_evicts_stale_readers_witness :
  let s := ba_state (beginAccess eIasRingBufferAccessWrite 0 (Some 0)
                       (Some 0) (at_sec 4) (after once7 (ring 4))) in
  let s' := (endAccess eIasRingBufferAccessWrite 0 0 0 (at_sec 4)
               (at_ms 4500) s).2 in
  mReaders s' !! 0%nat = Some noReader
  ∧ ba_result (beginAccess eIasRingBufferAccessRead 7 (Some 0) (Some 1)
                 (at_sec 5) s') = eIasRingBuffInvalidParam.
Proof.
  intros s s'.
  destruct (purge_evicts_stale_readers s s' 0 0 0 (at_sec 4) (at_ms 4500)
              0%nat {| pid := 7; offset := 0; lastAccess := 1000000000;
                       allowedToRead := 0 |})
    as (Hz & _ & Hcalls).
  - reflexivity.
  - reflexivity.
  - reflexivity.
  - reflexivity.
  - discriminate.
  - apply (bool_decide_unpack _). vm_compute. exact I.
  - split.
    + apply Hz. unfold stale. vm_compute. split; reflexivity.
    + destruct Hcalls as (_ & _ & Hb & _).
      * apply (bool_decide_unpack _). vm_compute. exact I.
      * by rewrite Hb.
Defined.

(** ** The smallest offset of the live readers *)

Lemma smallerOf_le acc r : smallerOf acc r <= acc.
Proof. unfold smallerOf. split_ifs; lia. Qed.

Lemma fold_smallerOf_le l acc : fold_left smallerOf l acc <= acc.
Proof.
  revert acc. induction l as [|r l IH]; intros acc; simpl; [lia|].
  pose proof (IH (smallerOf acc r)). pose proof (smallerOf_le acc r). lia.
Qed.

Lemma fold_smallerOf_lower l acc i r :
  l !! i = Some r → live r → fold_left smallerOf l acc <= offset r.
Proof.
  revert acc i. induction l as [|x l IH]; intros acc [|i]; simpl; try done.
  - intros [= ->] Hl. pose proof (fold_smallerOf_le l (smallerOf acc r)).
    unfold smallerOf, live in *. split_ifs; lia.
  - intros. by eapply IH.
Qed.

Lemma fold_smallerOf_bound lo l acc :
  lo <= acc →
  Forall (λ r, live r → lo <= offset r) l →
  lo <= fold_left smallerOf l acc.
Proof.
  intros Hacc Hl. revert acc Hacc.
  induction Hl as [|r l Hr Hl IH]; intros acc Hacc; simpl; [done|].
  apply IH. unfold smallerOf, live in *. split_ifs; lia.
Qed.

(** ** The invariant *)

Lemma reader_ok_noReader n ro level : reader_ok n ro level noReader.
Proof. intros H. by destruct H. Qed.

Lemma reader_ok_same n ro level r r' :
  pid r' = pid r → offset r' = offset r → allowedToRead r' = allowedToRead r →
  reader_ok n ro level r → reader_ok n ro level r'.
Proof. unfold reader_ok, live. intros -> -> ->. done. Qed.

Lemma Inv_live_bounds s i r :
  Inv s → mReaders s !! i = Some r → live r →
  mReadOffset s <= offset r
  ∧ 0 <= allowedToRead r
  ∧ offset r + allowedToRead r <= mNumBuffers s
  ∧ offset r + allowedToRead r - mReadOffset s <= mBufferLevel s.
Proof.
  intros HI Hi Hl. by apply (Forall_lookup_1 _ _ _ _ (inv_readers s HI) Hi).
Qed.

Lemma aggregateReaderOffset_Inv s i r :
  Inv s → mReaders s !! i = Some r → live r →
  Inv (aggregateReaderOffset s).
Proof.
  intros HI Hi Hlive.
  pose proof (Inv_live_bounds s i r HI Hi Hlive) as Hb.
  destruct HI as [Hsm Hn Hr Hw Hl Hc Ha Hrs Hin].
  set (m := fold_left smallerOf (mReaders s) UINT32_MAX).
  assert (Hlo : mReadOffset s <= m).
  { apply fold_smallerOf_bound; [unfold UINT32_MAX; lia|].
    eapply List.Forall_impl; [|exact Hrs]. intros e He Hle.
    by destruct (He Hle). }
  assert (Hhi : m <= offset r) by by eapply fold_smallerOf_lower.
  assert (Hmin : Forall (λ e, live e → m <= offset e) (mReaders s)).
  { apply Forall_lookup_2. intros j e Hj Hle.
    by eapply fold_smallerOf_lower. }
  unfold aggregateReaderOffset, updateSmallerReaderOffset. fold m.
  destruct (Z.eqb_spec m UINT32_MAX); [unfold UINT32_MAX in *; lia|].
  destruct (Z.eqb_spec m (mNumBuffers s)) as [Hm|Hm]; simpl.
  - destruct (Z.eqb_spec m (mNumBuffers s)) as [_|]; [|done].
    constructor; simpl; unfold u32; try lia; try done.
    apply Forall_fmap. apply Forall_lookup_2. intros j e Hj.
    pose proof (Forall_lookup_1 _ _ _ _ Hrs Hj) as Hok.
    pose proof (Forall_lookup_1 _ _ _ _ Hmin Hj) as Hme.
    unfold compose, resetOffset, reader_ok, live in *.
    destruct (Z.eqb_spec (pid e) 0); [done|]. simpl. intros _. lia.
  - destruct (Z.eqb_spec m (mNumBuffers s)) as [|_]; [done|].
    destruct (Z.ltb_spec m (mNumBuffers s)) as [_|]; [|lia].
    constructor; simpl; unfold u32; try lia; try done.
    apply Forall_lookup_2. intros j e Hj.
    pose proof (Forall_lookup_1 _ _ _ _ Hrs Hj) as Hok.
    pose proof (Forall_lookup_1 _ _ _ _ Hmin Hj) as Hme.
    unfold reader_ok, live in *. intros Hle. lia.
Qed.

Lemma Inv_same_geometry s s' :
  mInitialized s' = mInitialized s →
  mNumBuffers s' = mNumBuffers s →
  mReadOffset s' = mReadOffset s →
  mWriteOffset s' = mWriteOffset s →
  mBufferLevel s' = mBufferLevel s →
  mAllowedToWrite s' = mAllowedToWrite s →
  Forall (reader_ok (mNumBuffers s) (mReadOffset s) (mBufferLevel s))
    (mReaders s') →
  Inv s → Inv s'.
Proof.
  intros H0 H1 H2 H3 H4 H5 H6 [].
  constructor; rewrite ?H0, ?H1, ?H2, ?H3, ?H4, ?H5; done.
Qed.

Lemma reader_ok_stamp n ro level now i l :
  Forall (reader_ok n ro level) l →
  Forall (reader_ok n ro level) (alter (set_lastAccess now) i l).
Proof.
  intros H. apply Forall_alter; [done|]. intros r _.
  by apply reader_ok_same.
Qed.

Lemma updateReaderAccess_Inv ts reader s :
  Inv s → Inv (updateReaderAccess ts reader s).
Proof.
  intros HI. apply (Inv_same_geometry s); [done..| |done]. simpl.
  apply reader_ok_stamp, HI.
Qed.

Lemma beginRead_Inv reader r numBuffers ts s :
  Inv s → mReaders s !! reader = Some r → live r → is_u32 numBuffers →
  Inv (ba_state (beginRead reader numBuffers ts s)).
Proof.
  intros HI Hi Hlive Hn.
  pose proof (Inv_live_bounds s reader r HI Hi Hlive) as Hb.
  unfold beginRead. simpl. apply updateReaderAccess_Inv.
  apply (Inv_same_geometry s); [done..| |done]. simpl.
  apply Forall_alter; [apply HI|]. intros x Hx _. simplify_eq.
  unfold calculateReaderBufferLevel, readerAt. rewrite Hi. simpl.
  destruct HI as [Hsm HN Hr Hw Hl Hc Ha _ Hin].
  unfold reader_ok, is_u32, u32 in *. simpl. intros _.
  split_ifs; lia.
Qed.

Lemma beginWrite_Inv numBuffers ts s :
  Inv s → is_u32 numBuffers →
  Inv (ba_state (beginWrite numBuffers ts s)).
Proof.
  intros [Hsm HN Hr Hw Hl Hc Ha Hrs Hin] Hn. unfold beginWrite.
  constructor; simpl; try done.
  unfold is_u32, u32 in *. split_ifs; lia.
Qed.

Lemma endRead_Inv reader r numBuffers ts s :
  Inv s → mReaders s !! reader = Some r → live r → is_u32 numBuffers →
  Inv (endRead reader numBuffers ts s).2.
Proof.
  intros HI Hi Hlive Hn.
  pose proof (Inv_live_bounds s reader r HI Hi Hlive) as Hb.
  unfold endRead, readerAt. rewrite Hi. simpl.
  destruct (Z.gtb_spec numBuffers (allowedToRead r)); [done|]. simpl.
  apply updateReaderAccess_Inv.
  eapply (aggregateReaderOffset_Inv _ reader); simpl.
  - apply (Inv_same_geometry s); [done..| |done]. simpl.
    apply Forall_alter; [apply HI|]. intros x Hx _. simplify_eq.
    destruct HI as [Hsm HN Hr Hw Hl Hc Ha _ Hin].
    unfold reader_ok, is_u32, u32 in *. simpl. intros _. lia.
  - by rewrite list_lookup_alter_eq, Hi.
  - done.
Qed.

Lemma purgeEntry_ok n ro level level' now r :
  level <= level' → reader_ok n ro level r →
  reader_ok n ro level' (purgeEntry now r).
Proof.
  intros Hle Hok.
  destruct (purgeEntry_cases now r) as [-> | ->];
    [|apply reader_ok_noReader].
  unfold reader_ok in *. intros Hl. specialize (Hok Hl). lia.
Qed.

Lemma endWrite_Inv numBuffers tsAccess tsPurge s :
  Inv s → is_u32 numBuffers →
  Inv (endWrite numBuffers tsAccess tsPurge s).2.
Proof.
  intros HI Hn. unfold endWrite.
  destruct (Z.gtb_spec numBuffers (mAllowedToWrite s)); [done|].
  destruct HI as [Hsm HN Hr Hw Hl Hc Ha Hrs Hin]. simpl.
  unfold is_u32, u32 in *.
  split_ifs; simpl; constructor; simpl; try lia; try done.
  all: apply Forall_fmap; eapply List.Forall_impl; [|exact Hrs];
    intros r Hok; apply (purgeEntry_ok _ _ (mBufferLevel s)); [lia|done].
Qed.

Lemma addReader_Inv p ts s :
  free_zero (mReaders s) → Inv s → Inv (addReader p ts s).2.
Proof.
  intros Hz HI. unfold addReader.
  destruct (Z.leb_spec p 0); [done|].
  destruct (list_find _ _) as [[i e]|] eqn:E; [|done]. simpl.
  apply list_find_Some in E as (Hi & He & _).
  assert (e = noReader) as -> by by eapply (Forall_lookup_1 _ _ _ _ Hz).
  apply updateReaderAccess_Inv.
  apply (Inv_same_geometry s); [done..| |done]. simpl.
  apply Forall_alter; [apply HI|]. intros x Hx _. simplify_eq.
  destruct HI as [Hsm HN Hr Hw Hl Hc Ha _ Hin].
  unfold reader_ok. simpl. intros _. lia.
Qed.

Lemma removeReader_Inv p s : Inv s → Inv (removeReader p s).2.
Proof.
  intros HI. unfold removeReader. destruct (p >? 0); [|done]. simpl.
  apply (Inv_same_geometry s); [done..| |done]. simpl.
  apply Forall_fmap. eapply List.Forall_impl; [|apply HI].
  intros r Hok. simpl.
  destruct (clearEntry_cases p r) as [-> | ->];
    [done|apply reader_ok_noReader].
Qed.

Lemma waitWrite_loop_Inv events s r s' :
  Forall (λ e, wake_mBufferLevel e = mBufferLevel s) events →
  waitWrite_loop events s = Some (r, s') → Inv s → Inv s'.
Proof.
  intros Hq. revert s Hq.
  induction events as [|e events IH]; intros s Hq; simpl.
  - destruct (_ >? _); [done|]. by intros [= <- <-].
  - inversion Hq as [|? ? He Hq']; subst.
    destruct (_ >? _); [|by intros [= <- <-]].
    assert (Hs : set_mBufferLevel s (wake_mBufferLevel e) = s)
      by (rewrite He; by destruct s).
    rewrite Hs. destruct (cndres e).
    + by apply IH.
    + by intros [= <- <-].
    + by intros [= <- <-].
Qed.

Lemma waitRead_loop_Inv reader numBuffers events s r s' :
  Forall (λ e, wake_mWriteOffset e = mWriteOffset s) events →
  waitRead_loop reader numBuffers events s = Some (r, s') →
  Inv s → Inv s'.
Proof.
  intros Hq. revert s Hq.
  induction events as [|e events IH]; intros s Hq; simpl.
  - destruct (_ <? _); [done|]. by intros [= <- <-].
  - inversion Hq as [|? ? He Hq']; subst.
    destruct (calculateReaderBufferLevel s reader <? numBuffers);
      [|by intros [= <- <-]].
    assert (Hs : set_mWriteOffset s (wake_mWriteOffset e) = s)
      by (rewrite He; by destruct s).
    rewrite Hs. destruct (cndres e).
    + intros H HI. eapply IH; [|done|by apply updateReaderAccess_Inv]. done.
    + intros [= <- <-] HI. by apply updateReaderAccess_Inv.
    + intros [= <- <-] HI. by apply updateReaderAccess_Inv.
Qed.

Lemma call_Inv c s s' :
  legal c s → call c s = Some s' →
  free_zero (mReaders s) → Inv s → Inv s'.
Proof.
  intros Hl Hc Hz HI. destruct c; simpl in Hc, Hl.
  - injection Hc as <-. by apply addReader_Inv.
  - injection Hc as <-. by apply removeReader_Inv.
  - by injection Hc as <-.
  - injection Hc as <-. destruct Hl as [Hp Hn]. unfold beginAccess.
    destruct offset_p, numBuffers_p as [n|], access; simpl; try done;
      destruct (mInitialized s); simpl; try done.
    + destruct (findReader p s) as [reader|] eqn:E; [|done].
      destruct (findReader_Some _ _ _ E) as (r & Hr & Hpid & _).
      eapply beginRead_Inv; [done..| |done].
      unfold live. rewrite Hpid. by apply Hp.
    + destruct (mWriteInProgress s); [done|]. by apply beginWrite_Inv.
  - injection Hc as <-. destruct Hl as [Hp Hn]. unfold endAccess.
    destruct access; [done| |].
    + destruct (findReader p s) as [reader|] eqn:E; [|done].
      destruct (findReader_Some _ _ _ E) as (r & Hr & Hpid & _).
      eapply endRead_Inv; [done..| |done].
      unfold live. rewrite Hpid. by apply Hp.
    + destruct (mWriteInProgress s); [|done]. by apply endWrite_Inv.
  - destruct Hl as (Hp & Hn & Hq). unfold waitRead in Hc.
    destruct (findReader p s) as [reader|] eqn:E;
      [|by injection Hc as <-].
    destruct (_ || _); [by injection Hc as <-|].
    apply fmap_Some in Hc as [[r s1] [Hc ->]]. simpl.
    eapply waitRead_loop_Inv; [|done|].
    + simpl. by destruct (_ <? _).
    + apply updateReaderAccess_Inv.
      destruct (_ <? _); [|done].
      apply (Inv_same_geometry s); [done..| |done]. apply HI.
  - destruct Hl as (Hn & Hq). unfold waitWrite in Hc.
    destruct (_ || _); [by injection Hc as <-|].
    apply fmap_Some in Hc as [[r s1] [Hc ->]]. simpl.
    eapply waitWrite_loop_Inv; [|done|].
    + done.
    + apply (Inv_same_geometry s); [done..| |done]. apply HI.
Qed.

Lemma waitWrite_loop_mNumBuffers events s r s' :
  waitWrite_loop events s = Some (r, s') → mNumBuffers s' = mNumBuffers s.
Proof.
  revert s. induction events as [|e events IH]; intros s; simpl.
  - destruct (_ >? _); [done|]. by intros [= <- <-].
  - destruct (_ >? _); [|by intros [= <- <-]].
    destruct (cndres e).
    + intros H. by apply IH in H as ->.
    + by intros [= <- <-].
    + by intros [= <- <-].
Qed.

Lemma waitRead_loop_mNumBuffers reader numBuffers events s r s' :
  waitRead_loop reader numBuffers events s = Some (r, s') →
  mNumBuffers s' = mNumBuffers s.
Proof.
  revert s. induction events as [|e events IH]; intros s; simpl.
  - destruct (_ <? _); [done|]. by intros [= <- <-].
  - destruct (_ <? _); [|by intros [= <- <-]].
    destruct (cndres e).
    + intros H. by apply IH in H as ->.
    + by intros [= <- <-].
    + by intros [= <- <-].
Qed.

Lemma aggregateReaderOffset_mNumBuffers s :
  mNumBuffers (aggregateReaderOffset s) = mNumBuffers s.
Proof.
  unfold aggregateReaderOffset, updateSmallerReaderOffset.
  split_ifs; simpl; split_ifs; done.
Qed.

Lemma call_mNumBuffers c s s' :
  call c s = Some s' → mNumBuffers s' = mNumBuffers s.
Proof.
  destruct c; simpl.
  - intros [= <-]. unfold addReader. destruct (p <=? 0); [done|].
    by destruct (list_find _ _) as [[i e]|].
  - intros [= <-]. unfold removeReader. by split_ifs.
  - by intros [= <-].
  - intros [= <-]. unfold beginAccess.
    repeat case_match; simpl; done.
  - intros [= <-]. unfold endAccess, endRead, endWrite.
    repeat case_match; simpl; try done.
    by rewrite aggregateReaderOffset_mNumBuffers.
  - unfold waitRead.
    destruct (findReader p s) as [reader|]; [|by intros [= <-]].
    destruct (_ || _); [by intros [= <-]|].
    intros [[r s1] [Hr ->]]%fmap_Some. simpl.
    apply waitRead_loop_mNumBuffers in Hr as ->. simpl.
    by destruct (_ <? _).
  - unfold waitWrite. destruct (_ || _); [by intros [= <-]|].
    intros [[r s1] [Hr ->]]%fmap_Some. simpl.
    by apply waitWrite_loop_mNumBuffers in Hr as ->.
Qed.

(** Every reachable control block of a ring of at most [2 ^ 31] slots
    satisfies the invariant. *)
Lemma reachable_Inv s :
  reachable s → 2 * mNumBuffers s <= 2 ^ 32 → Inv s.
Proof.
  induction 1 as [ps n buf sh s Hn Hi|c s s' Hs IH Hl Hc]; intros Hsmall.
  - unfold init in Hi.
    destruct (Z.eqb_spec ps 0), (Z.eqb_spec n 0), (Z.eqb_spec buf 0);
      simpl in Hi; try done.
    injection Hi as <-. simpl in Hsmall. unfold is_u32 in Hn.
    assert (Forall (reader_ok n 0 0) (mReaders constructed))
      by apply Forall_replicate, reader_ok_noReader.
    constructor; simpl; try lia; done.
  - rewrite (call_mNumBuffers c s s' Hc) in Hsmall.
    eapply call_Inv; [done..|by apply reachable_free_zero|by apply IH].
Qed.

(** ** The fill level *)

Lemma reachable_overrun3G : reachable (after overrun3G (ring 3000000000)).
Proof. by apply reachable_run; vm_compute. Qed.

(** C1, as stated, fails: the writer borrows and commits four slots of a
    fresh ring of four.  No borrow is in flight afterwards, the write
    offset has wrapped to the read offset, and the level is [4] where
    [(writeOffset - readOffset) mod numBuffers] is [0]. *)
Lemma full_ring_level :
  let s := after fill4 (ring 4) in
  reachable s
  ∧ mWriteInProgress s = false
  ∧ (mNumBuffers s, mReadOffset s, mWriteOffset s) = (4, 0, 0)
  ∧ mBufferLevel s = 4
  ∧ specLevel s = 0.
Proof. split; [apply reachable_fill4|]. by vm_compute. Qed.

(** Beyond [2 ^ 31] slots the 32-bit sums of the write side wrap and
    even the congruence is lost: after [overrun3G] the level is the
    whole ring, [0] modulo its size, and the offsets differ by
    [1705032704] modulo its size. *)
Lemma huge_ring_level :
  let s := after overrun3G (ring 3000000000) in
  reachable s
  ∧ mWriteInProgress s = false
  ∧ (mNumBuffers s, mReadOffset s, mWriteOffset s)
    = (3000000000, 2000000000, 705032704)
  ∧ mBufferLevel s mod mNumBuffers s = 0
  ∧ specLevel s = 1705032704.
Proof. split; [apply reachable_overrun3G|]. by vm_compute. Qed.

(** C1, amended: after a successful [init] of a ring of at most
    [2 ^ 31] slots and any sequence of calls (reader calls made with a
    nonzero id), whether or not a borrow is in flight, the fill level is
    at most [numBuffers] and congruent to [writeOffset - readOffset]
    modulo [numBuffers]; it equals
    [(writeOffset - readOffset) mod numBuffers] whenever the ring is
    not full. *)
Theorem level_congruent (s : IasAvbVideoRingBufferShm) :
  reachable s →
  2 * mNumBuffers s <= 2 ^ 32 →
  0 <= mBufferLevel s <= mNumBuffers s
  ∧ mBufferLevel s mod mNumBuffers s = specLevel s
  ∧ (mBufferLevel s < mNumBuffers s → mBufferLevel s = specLevel s).
Proof.
  intros Hs Hsmall.
  destruct (reachable_Inv s Hs Hsmall)
    as [_ HN Hr Hw Hl Hc _ _ _].
  assert (Hmod : mBufferLevel s mod mNumBuffers s = specLevel s).
  { unfold specLevel. destruct Hc as [-> | ->]; [done|].
    rewrite <- (Z.mul_1_l (mNumBuffers s)) at 1.
    apply Z_mod_plus_full. }
  split_and!; [lia..|done|].
  intros Hlt. rewrite <- Hmod. symmetry. apply Z.mod_small. lia.
Qed.

(** After [wrapped8] the writer is behind the readers in the array:
    the level is [4 = (0 - 4) mod 8]. *)
Lemma level_congruent_witness :
  0 <= mBufferLevel (after wrapped8 (ring 8))
    <= mNumBuffers (after wrapped8 (ring 8))
  ∧ mBufferLevel (after wrapped8 (ring 8))
      mod mNumBuffers (after wrapped8 (ring 8))
    = specLevel (after wrapped8 (ring 8))
  ∧ (mBufferLevel (after wrapped8 (ring 8))
     < mNumBuffers (after wrapped8 (ring 8)) →
     mBufferLevel (after wrapped8 (ring 8))
     = specLevel (after wrapped8 (ring 8))).
Proof.
  apply (level_congruent (after wrapped8 (ring 8))).
  - apply reachable_wrapped8.
  - vm_compute. discriminate.
Defined.

(** ** The grant of a read borrow *)

(** C5, on the code: in a ring of 3000000000 slots, after [lapped3G],
    reader 7 is at offset 2000000000 and the writer, wrapped, at
    1500000000, so the reader has 2500000000 slots to read.  It asks
    for 2400000000.  The first step of the read side of [beginAccess]
    leaves the request as it is; the second adds [*offset] and
    [*numBuffers] in 32 bits, the sum wraps to 105032704, which is
    below [mNumBuffers], and the reduction to the physical end, which
    would give 1000000000, is skipped.  The call returns
    [eIasRingBuffOk] with 2400000000 slots granted and recorded in
    [allowedToRead]: the run ends 1400000000 slots past the end of the
    array. *)
Theorem read_grant_past_the_end :
  let s := after lapped3G (ring 3000000000) in
  let b := beginAccess eIasRingBufferAccessRead 7 (Some 0) (Some 2400000000)
             (at_sec 2) s in
  reachable s
  ∧ findReader 7 s = Some 0%nat
  ∧ (mNumBuffers s, mWriteOffset s, offset (readerAt s 0),
     calculateReaderBufferLevel s 0)
    = (3000000000, 1500000000, 2000000000, 2500000000)
  ∧ u32 (offset (readerAt s 0) + 2400000000) = 105032704
  ∧ specReadGrant s (readerAt s 0) 2400000000 = 1000000000
  ∧ ba_result b = eIasRingBuffOk
  ∧ ba_offset b = Some 2000000000
  ∧ ba_numBuffers b = Some 2400000000
  ∧ allowedToRead (readerAt (ba_state b) 0) = 2400000000
  ∧ 2000000000 + 2400000000 > mNumBuffers s.
Proof. split; [apply reachable_lapped3G|]. by vm_compute. Qed.

(** Under the invariant the arithmetic of [beginRead] does not wrap. *)
Lemma beginRead_grant reader r request ts s :
  Inv s → mReaders s !! reader = Some r → live r → is_u32 request →
  calculateReaderBufferLevel s reader = specReaderLevel s r
  ∧ beginRead reader request ts s
    = {| ba_result := eIasRingBuffOk;
         ba_offset := Some (offset r);
         ba_numBuffers := Some (specReadGrant s r request);
         ba_state :=
           set_mReaders s
             (alter (set_lastAccess (timespec_ns ts)
                     ∘ set_allowedToRead (specReadGrant s r request))
                reader (mReaders s)) |}
  ∧ 0 <= specReadGrant s r request <= request
  ∧ specReadGrant s r request <= specReaderLevel s r
  ∧ offset r + specReadGrant s r request <= mNumBuffers s.
Proof.
  intros HI Hi Hlive Hn.
  pose proof (Inv_live_bounds s reader r HI Hi Hlive) as Hb.
  destruct HI as [Hsm HN Hr Hw Hl Hc Ha _ _].
  assert (Hlevel : calculateReaderBufferLevel s reader
                   = specReaderLevel s r).
  { unfold calculateReaderBufferLevel, specReaderLevel, readerAt.
    rewrite Hi. simpl. unfold u32. case_decide; split_ifs; lia. }
  assert (Hgrant :
    (if u32 (offset r + (if request >? specReaderLevel s r
                         then specReaderLevel s r else request))
        >=? mNumBuffers s
     then u32 (mNumBuffers s - offset r)
     else if request >? specReaderLevel s r
          then specReaderLevel s r else request)
    = specReadGrant s r request).
  { unfold specReadGrant, specReaderLevel, is_u32, u32 in *.
    repeat case_decide; split_ifs; lia. }
  split; [done|]. split.
  - unfold beginRead, updateReaderAccess. simpl.
    rewrite Hlevel. unfold readerAt. rewrite Hi. simpl.
    rewrite Hgrant, list_alter_alter_eq. done.
  - unfold specReadGrant, specReaderLevel, is_u32 in *.
    repeat case_decide; lia.
Qed.

(** X16: in a reachable ring of at most [2 ^ 31] slots the sums of the
    read side of [beginAccess] do not wrap: every successful call by a
    registered reader [r] grants the request reduced first to the level
    of the reader and then, if [r.offset + n >= mNumBuffers], to
    [mNumBuffers - r.offset]; the run returned starts at [r.offset] and
    ends at or before the physical end, and [r.allowedToRead] is the
    count granted. *)
Theorem beginAccess_read_grant
    (s : IasAvbVideoRingBufferShm) (p off request : Z) (ts : timespec) :
  reachable s →
  2 * mNumBuffers s <= 2 ^ 32 →
  p ≠ 0 →
  is_u32 request →
  let b := beginAccess eIasRingBufferAccessRead p (Some off) (Some request)
             ts s in
  ba_result b = eIasRingBuffOk →
  ∃ reader r,
    findReader p s = Some reader
    ∧ mReaders s !! reader = Some r
    ∧ pid r = p
    ∧ calculateReaderBufferLevel s reader = specReaderLevel s r
    ∧ ba_offset b = Some (offset r)
    ∧ ba_numBuffers b = Some (specReadGrant s r request)
    ∧ 0 <= specReadGrant s r request <= request
    ∧ offset r + specReadGrant s r request <= mNumBuffers s
    ∧ mReaders (ba_state b) !! reader
      = Some {| pid := p; offset := offset r;
                lastAccess := timespec_ns ts;
                allowedToRead := specReadGrant s r request |}.
Proof.
  intros Hs Hsmall Hp Hn b. subst b.
  pose proof (reachable_Inv s Hs Hsmall) as HI.
  unfold beginAccess. rewrite (inv_initialized s HI). simpl.
  destruct (findReader p s) as [reader|] eqn:E; [|done]. intros _.
  destruct (findReader_Some _ _ _ E) as (r & Hr & Hpid & _).
  assert (Hlive : live r) by (unfold live; congruence).
  destruct (beginRead_grant reader r request ts s HI Hr Hlive Hn)
    as (Hlevel & -> & Hrange & _ & Hend).
  exists reader, r. simpl. split_and!; try done; try lia.
  rewrite list_lookup_alter_eq, Hr. simpl. by rewrite <- Hpid.
Qed.

(** After [wrapped8] reader 7 is at offset 4 of 8 with four slots to
    read; it asks for nine and is granted four, up to the physical
    end. *)
Lemma beginAccess_read_grant_witness :
  ∃ reader r,
    findReader 7 (after wrapped8 (ring 8)) = Some reader
    ∧ mReaders (after wrapped8 (ring 8)) !! reader = Some r
    ∧ pid r = 7
    ∧ calculateReaderBufferLevel (after wrapped8 (ring 8)) reader
      = specReaderLevel (after wrapped8 (ring 8)) r
    ∧ ba_offset (beginAccess eIasRingBufferAccessRead 7 (Some 0) (Some 9)
                   (at_sec 2) (after wrapped8 (ring 8)))
      = Some (offset r)
    ∧ ba_numBuffers (beginAccess eIasRingBufferAccessRead 7 (Some 0)
                       (Some 9) (at_sec 2) (after wrapped8 (ring 8)))
      = Some (specReadGrant (after wrapped8 (ring 8)) r 9)
    ∧ 0 <= specReadGrant (after wrapped8 (ring 8)) r 9 <= 9
    ∧ offset r + specReadGrant (after wrapped8 (ring 8)) r 9
      <= mNumBuffers (after wrapped8 (ring 8))
    ∧ mReaders (ba_state (beginAccess eIasRingBufferAccessRead 7 (Some 0)
                            (Some 9) (at_sec 2) (after wrapped8 (ring 8))))
        !! reader
      = Some {| pid := 7; offset := offset r;
                lastAccess := timespec_ns (at_sec 2);
                allowedToRead := specReadGrant (after wrapped8 (ring 8)) r 9 |}.
Proof.
  apply (beginAccess_read_grant (after wrapped8 (ring 8)) 7 0 9 (at_sec 2)).
  - apply reachable_wrapped8.
  - vm_compute. discriminate.
  - discriminate.
  - vm_compute. split; [discriminate|reflexivity].
  - reflexivity.
Defined.

(** ** Further consequences of the invariant *)

(** In a ring of at most [2 ^ 31] slots the geometry check of the write
    side of [endAccess] never fails: a count within the grant is
    committed. *)
Lemma endAccess_write_within_grant p offset_a numBuffers tsAccess tsPurge s :
  reachable s → 2 * mNumBuffers s <= 2 ^ 32 →
  mWriteInProgress s = true →
  is_u32 numBuffers → numBuffers <= mAllowedToWrite s →
  (endAccess eIasRingBufferAccessWrite p offset_a numBuffers
     tsAccess tsPurge s).1 = eIasRingBuffOk.
Proof.
  intros Hs Hsmall Hw Hn Hle.
  destruct (reachable_Inv s Hs Hsmall) as [_ HN Hr Hwo Hl _ Ha _ _].
  unfold endAccess, endWrite. rewrite Hw. simpl.
  unfold is_u32, u32 in *. split_ifs; simpl; try done; lia.
Qed.

(** There the grant of a write borrow fits the free space and stops at
    the physical end. *)
Lemma beginAccess_write_within_ring p off request ts s :
  reachable s → 2 * mNumBuffers s <= 2 ^ 32 → is_u32 request →
  let b := beginAccess eIasRingBufferAccessWrite p (Some off) (Some request)
             ts s in
  ba_result b = eIasRingBuffOk →
  ∃ n, ba_numBuffers b = Some n
       ∧ 0 <= n
       ∧ mWriteOffset s + n <= mNumBuffers s
       ∧ mBufferLevel s + n <= mNumBuffers s.
Proof.
  intros Hs Hsmall Hn b. subst b.
  pose proof (reachable_Inv s Hs Hsmall) as HI.
  unfold beginAccess. rewrite (inv_initialized s HI). simpl.
  destruct (mWriteInProgress s); [done|]. intros _.
  destruct (beginWrite_Inv request ts s HI Hn) as [_ _ _ _ _ _ Ha _ _].
  eexists. split; [done|]. exact Ha.
Qed.

(** One writer at a time: a second [beginAccess] for write access
    before the [endAccess] of the first is refused. *)
Lemma beginAccess_write_exclusive p off n ts p' off' n' ts' s :
  let b := beginAccess eIasRingBufferAccessWrite p (Some off) (Some n) ts s in
  ba_result b = eIasRingBuffOk →
  beginAccess eIasRingBufferAccessWrite p' (Some off') (Some n') ts'
    (ba_state b)
  = {| ba_result := eIasRingBuffNotAllowed; ba_offset := Some off';
       ba_numBuffers := Some n'; ba_state := ba_state b |}.
Proof.
  intros b. subst b. unfold beginAccess.
  destruct (mInitialized s) eqn:Hi; [|done]. simpl.
  destruct (mWriteInProgress s); [done|]. intros _.
  simpl. by rewrite Hi.
Qed.

(** ** What the loops and the aggregation can change *)

Lemma waitWrite_loop_shape events s r s' :
  waitWrite_loop events s = Some (r, s') →
  ∃ level, s' = set_mBufferLevel s level.
Proof.
  revert s. induction events as [|e events IH]; intros s; simpl.
  - destruct (_ >? _); [done|]. intros [= <- <-].
    exists (mBufferLevel s). by destruct s.
  - destruct (mBufferLevel s >? mWriteWaitLevel s);
      [|intros [= <- <-]; exists (mBufferLevel s); by destruct s].
    destruct (cndres e).
    + intros [level ->]%IH. by exists level.
    + intros [= <- <-]. by eexists.
    + intros [= <- <-]. by eexists.
Qed.

Lemma waitRead_loop_shape reader numBuffers events s r s' :
  waitRead_loop reader numBuffers events s = Some (r, s') →
  ∃ wo l, s' = set_mReaders (set_mWriteOffset s wo) l
          ∧ pids l = pids (mReaders s).
Proof.
  revert s. induction events as [|e events IH]; intros s; simpl.
  - destruct (_ <? _); [done|]. intros [= <- <-].
    exists (mWriteOffset s), (mReaders s). by destruct s.
  - destruct (_ <? _);
      [|intros [= <- <-]; exists (mWriteOffset s), (mReaders s);
        by destruct s].
    destruct (cndres e).
    + intros (wo & l & -> & Hp)%IH. exists wo, l. split; [done|].
      rewrite Hp. simpl. by apply pids_alter.
    + intros [= <- <-]. eexists _, _. split; [done|]. by apply pids_alter.
    + intros [= <- <-]. eexists _, _. split; [done|]. by apply pids_alter.
Qed.

Lemma aggregateReaderOffset_shape s :
  ∃ l level ro,
    aggregateReaderOffset s
    = set_mReadOffset (set_mBufferLevel (set_mReaders s l) level) ro.
Proof.
  unfold aggregateReaderOffset, updateSmallerReaderOffset.
  destruct s. simpl. split_ifs; simpl; split_ifs;
    eexists _, _, _; unfold set_mReadOffset, set_mBufferLevel, set_mReaders;
    simpl; reflexivity.
Qed.

Lemma call_geometry c s s' : call c s = Some s' → geometry s' = geometry s.
Proof.
  destruct c; simpl.
  - intros [= <-]. unfold addReader. destruct (p <=? 0); [done|].
    by destruct (list_find _ _) as [[i e]|].
  - intros [= <-]. unfold removeReader. by split_ifs.
  - by intros [= <-].
  - intros [= <-]. unfold beginAccess. repeat case_match; simpl; done.
  - intros [= <-]. unfold endAccess, endRead, endWrite.
    repeat case_match; simpl; try done.
    destruct (aggregateReaderOffset_shape
                (set_mReaders s (alter
                   (λ r, set_offset (u32 (offset r + numBuffers))
                           (set_allowedToRead 0 r)) n (mReaders s))))
      as (l & level & ro & ->). done.
  - unfold waitRead.
    destruct (findReader p s) as [reader|]; [|by intros [= <-]].
    destruct (_ || _); [by intros [= <-]|].
    intros [[r s1] [Hr ->]]%fmap_Some. simpl.
    apply waitRead_loop_shape in Hr as (wo & l & -> & _). simpl.
    by destruct (_ <? _).
  - unfold waitWrite. destruct (_ || _); [by intros [= <-]|].
    intros [[r s1] [Hr ->]]%fmap_Some. simpl.
    by apply waitWrite_loop_shape in Hr as (level & ->).
Qed.

Lemma calls_geometry cs s s' : calls cs s = Some s' → geometry s' = geometry s.
Proof.
  revert s. induction cs as [|c cs IH]; simpl; intros s.
  - by intros [= <-].
  - destruct (call c s) as [s1|] eqn:E; [|done].
    intros H. rewrite (IH _ H). by apply (call_geometry c).
Qed.

(** ** The geometry after [init] *)

(** X1: no call of the interface other than [init] writes the geometry:
    after any sequence of calls [mBufferSize], [mNumBuffers], [mDataBuf]
    and [mInitialized] (and [mShared], [mReadInProgress]) are what they
    were before it. *)
Theorem calls_keep_geometry
    (cs : list Call) (s s' : IasAvbVideoRingBufferShm) :
  calls cs s = Some s' →
  mBufferSize s' = mBufferSize s
  ∧ mNumBuffers s' = mNumBuffers s
  ∧ mDataBuf s' = mDataBuf s
  ∧ mInitialized s' = mInitialized s
  ∧ mShared s' = mShared s
  ∧ mReadInProgress s' = mReadInProgress s.
Proof.
  intros H%calls_geometry. unfold geometry in H.
  injection H as -> -> -> -> -> ->. done.
Qed.

Lemma calls_keep_geometry_witness :
  mBufferSize (after wrapped8 (ring 8)) = mBufferSize (ring 8)
  ∧ mNumBuffers (after wrapped8 (ring 8)) = mNumBuffers (ring 8)
  ∧ mDataBuf (after wrapped8 (ring 8)) = mDataBuf (ring 8)
  ∧ mInitialized (after wrapped8 (ring 8)) = mInitialized (ring 8)
  ∧ mShared (after wrapped8 (ring 8)) = mShared (ring 8)
  ∧ mReadInProgress (after wrapped8 (ring 8)) = mReadInProgress (ring 8).
Proof.
  apply (calls_keep_geometry wrapped8 (ring 8) (after wrapped8 (ring 8))).
  vm_compute. reflexivity.
Defined.

(** ** One writer at a time *)

Lemma call_keeps_borrow c s s' :
  mWriteInProgress s = true → ¬ isWriteEnd c → call c s = Some s' →
  mWriteInProgress s' = true.
Proof.
  intros Hw Hc. destruct c; simpl.
  - intros [= <-]. unfold addReader. destruct (p <=? 0); [done|].
    by destruct (list_find _ _) as [[i e]|].
  - intros [= <-]. unfold removeReader. by split_ifs.
  - by intros [= <-].
  - intros [= <-]. unfold beginAccess. rewrite Hw.
    repeat case_match; simpl; done.
  - intros [= <-]. unfold endAccess, endRead.
    destruct access; [done| |by destruct Hc].
    repeat case_match; simpl; try done.
    destruct (aggregateReaderOffset_shape
                (set_mReaders s (alter
                   (λ r, set_offset (u32 (offset r + numBuffers))
                           (set_allowedToRead 0 r)) n (mReaders s))))
      as (l & level & ro & ->). done.
  - unfold waitRead.
    destruct (findReader p s) as [reader|]; [|by intros [= <-]].
    destruct (_ || _); [by intros [= <-]|].
    intros [[r s1] [Hr ->]]%fmap_Some. simpl.
    apply waitRead_loop_shape in Hr as (wo & l & -> & _). simpl.
    by destruct (_ <? _).
  - unfold waitWrite. destruct (_ || _); [by intros [= <-]|].
    intros [[r s1] [Hr ->]]%fmap_Some. simpl.
    by apply waitWrite_loop_shape in Hr as (level & ->).
Qed.

(** X2: while a write borrow is in flight, whatever calls are made in
    between, as long as none is an [endAccess] for write access, the
    borrow stays in flight and every [beginAccess] for write access is
    refused with [eIasRingBuffNotAllowed] and changes nothing. *)
Theorem write_borrow_excludes_writers
    (cs : list Call) (s s' : IasAvbVideoRingBufferShm)
    (p off n : Z) (ts : timespec) :
  mInitialized s = true →
  mWriteInProgress s = true →
  Forall (λ c, ¬ isWriteEnd c) cs →
  calls cs s = Some s' →
  mWriteInProgress s' = true
  ∧ beginAccess eIasRingBufferAccessWrite p (Some off) (Some n) ts s'
    = {| ba_result := eIasRingBuffNotAllowed; ba_offset := Some off;
         ba_numBuffers := Some n; ba_state := s' |}.
Proof.
  intros Hi Hw Hcs Hrun.
  assert (Hi' : mInitialized s' = true).
  { pose proof (calls_geometry cs s s' Hrun) as Hg. unfold geometry in Hg.
    injection Hg as _ _ _ -> _ _. done. }
  assert (Hw' : mWriteInProgress s' = true).
  { clear Hi Hi'. revert s Hw Hrun.
    induction Hcs as [|c cs Hc Hcs IH]; simpl; intros s Hw.
    - by intros [= <-].
    - destruct (call c s) as [s1|] eqn:E; [|done].
      apply IH. by apply (call_keeps_borrow c s). }
  split; [done|]. unfold beginAccess. by rewrite Hi', Hw'.
Qed.

(** The writer of [twice7] holds a borrow; reader 7 borrows and
    commits, another reader registers: a second writer is refused. *)
Lemma write_borrow_excludes_writers_witness :
  mWriteInProgress
    (after (transfer eIasRingBufferAccessRead 7 1 0
            ++ [callAddReader 9 (at_sec 5)]) (after twice7 (ring 4)))
  = true
  ∧ beginAccess eIasRingBufferAccessWrite 0 (Some 0) (Some 2) (at_sec 6)
      (after (transfer eIasRingBufferAccessRead 7 1 0
              ++ [callAddReader 9 (at_sec 5)]) (after twice7 (ring 4)))
    = {| ba_result := eIasRingBuffNotAllowed; ba_offset := Some 0;
         ba_numBuffers := Some 2;
         ba_state :=
           after (transfer eIasRingBufferAccessRead 7 1 0
                  ++ [callAddReader 9 (at_sec 5)])
             (after twice7 (ring 4)) |}.
Proof.
  apply (write_borrow_excludes_writers
           (transfer eIasRingBufferAccessRead 7 1 0
            ++ [callAddReader 9 (at_sec 5)])
           (after twice7 (ring 4))).
  - vm_compute. reflexivity.
  - vm_compute. reflexivity.
  - apply (bool_decide_unpack _). vm_compute. exact I.
  - vm_compute. reflexivity.
Defined.

(** ** The writer's borrow and commit *)

Lemma reachable_lent4 : reachable (after lent4 (ring 4)).
Proof. by apply reachable_run; vm_compute. Qed.

Lemma reachable_jammed4 : reachable (after jammed4 (ring 4)).
Proof. by apply reachable_run; vm_compute. Qed.

(** X3: in a reachable ring of at most [2 ^ 31] slots a successful
    [beginAccess] for write access returns the current write offset and
    a count that is recorded in [mAllowedToWrite], is not negative,
    does not pass the physical end of the array, and is at most the
    free space [mNumBuffers - mBufferLevel] that [updateAvailable]
    reports; it is at most the request unless the writer is behind the
    read offset, where it is [mReadOffset - mWriteOffset - 1]. *)
Theorem write_grant_bounds
    (s : IasAvbVideoRingBufferShm) (p off request : Z) (ts : timespec) :
  reachable s →
  2 * mNumBuffers s <= 2 ^ 32 →
  is_u32 request →
  let b := beginAccess eIasRingBufferAccessWrite p (Some off) (Some request)
             ts s in
  ba_result b = eIasRingBuffOk →
  ∃ n,
    ba_numBuffers b = Some n
    ∧ ba_offset b = Some (mWriteOffset s)
    ∧ mAllowedToWrite (ba_state b) = n
    ∧ mWriteInProgress (ba_state b) = true
    ∧ 0 <= n
    ∧ mWriteOffset s + n <= mNumBuffers s
    ∧ updateAvailable eIasRingBufferAccessWrite p (Some request) s
      = (eIasRingBuffOk, Some (mNumBuffers s - mBufferLevel s))
    ∧ n <= mNumBuffers s - mBufferLevel s
    ∧ (mReadOffset s <= mWriteOffset s → n <= request)
    ∧ (mWriteOffset s < mReadOffset s →
       n = mReadOffset s - mWriteOffset s - 1).
Proof.
  intros Hs Hsmall Hn b. subst b.
  pose proof (reachable_Inv s Hs Hsmall) as HI.
  unfold beginAccess, updateAvailable. rewrite (inv_initialized s HI). simpl.
  destruct (mWriteInProgress s); [done|]. intros _.
  pose proof (beginWrite_Inv request ts s HI Hn) as HI'.
  destruct HI as [_ HN Hr Hw Hl _ _ _ _].
  destruct HI' as [_ _ _ _ _ _ Ha _ _].
  assert (Hgrant : ba_numBuffers (beginWrite request ts s)
                   = Some (mAllowedToWrite (ba_state (beginWrite request ts s))))
    by reflexivity.
  assert (Hb : 0 <= mAllowedToWrite (ba_state (beginWrite request ts s))
               ∧ mWriteOffset s
                 + mAllowedToWrite (ba_state (beginWrite request ts s))
                 <= mNumBuffers s
               ∧ mBufferLevel s
                 + mAllowedToWrite (ba_state (beginWrite request ts s))
                 <= mNumBuffers s) by exact Ha.
  clear Ha.
  set (n := mAllowedToWrite (ba_state (beginWrite request ts s))) in *.
  exists n. split_and!; try done; try lia.
  - f_equal. f_equal. apply u32_id. unfold is_u32. lia.
  - intros Hahead.
    destruct (beginWrite_ahead_of_reader request ts s)
      as (n' & Hgrant' & Hle); try done; unfold is_u32; try lia.
    rewrite Hgrant in Hgrant'. injection Hgrant' as <-. lia.
  - intros Hbehind.
    pose proof (beginWrite_behind_reader request ts s Hbehind) as Hgrant'.
    rewrite Hgrant in Hgrant'. injection Hgrant' as ->.
    unfold u32. lia.
Qed.

(** The writer of [wrapped8] is behind the read offset: it asks for two
    slots. *)
Lemma write_grant_bounds_witness :
  ∃ n,
    ba_numBuffers (beginAccess eIasRingBufferAccessWrite 0 (Some 0) (Some 2)
                     (at_sec 2) (after wrapped8 (ring 8))) = Some n
    ∧ ba_offset (beginAccess eIasRingBufferAccessWrite 0 (Some 0) (Some 2)
                   (at_sec 2) (after wrapped8 (ring 8)))
      = Some (mWriteOffset (after wrapped8 (ring 8)))
    ∧ mAllowedToWrite
        (ba_state (beginAccess eIasRingBufferAccessWrite 0 (Some 0) (Some 2)
                     (at_sec 2) (after wrapped8 (ring 8)))) = n
    ∧ mWriteInProgress
        (ba_state (beginAccess eIasRingBufferAccessWrite 0 (Some 0) (Some 2)
                     (at_sec 2) (after wrapped8 (ring 8)))) = true
    ∧ 0 <= n
    ∧ mWriteOffset (after wrapped8 (ring 8)) + n
      <= mNumBuffers (after wrapped8 (ring 8))
    ∧ updateAvailable eIasRingBufferAccessWrite 0 (Some 2)
        (after wrapped8 (ring 8))
      = (eIasRingBuffOk,
         Some (mNumBuffers (after wrapped8 (ring 8))
               - mBufferLevel (after wrapped8 (ring 8))))
    ∧ n <= mNumBuffers (after wrapped8 (ring 8))
           - mBufferLevel (after wrapped8 (ring 8))
    ∧ (mReadOffset (after wrapped8 (ring 8))
       <= mWriteOffset (after wrapped8 (ring 8)) → n <= 2)
    ∧ (mWriteOffset (after wrapped8 (ring 8))
       < mReadOffset (after wrapped8 (ring 8)) →
       n = mReadOffset (after wrapped8 (ring 8))
           - mWriteOffset (after wrapped8 (ring 8)) - 1).
Proof.
  apply (write_grant_bounds (after wrapped8 (ring 8)) 0 0 2 (at_sec 2)).
  - apply reachable_wrapped8.
  - vm_compute. discriminate.
  - vm_compute. split; [discriminate|reflexivity].
  - vm_compute. reflexivity.
Defined.

(** X4: in a reachable ring of at most [2 ^ 31] slots, an [endAccess]
    for write access with a count within the grant always succeeds: the
    write offset advances by the count modulo [mNumBuffers], the fill
    level grows by the count, the read offset stays, the borrow and its
    mutex are released, the grant is cleared, the writer is stamped and
    the reader table is purged; the next write borrow starts at the new
    write offset. *)
Theorem write_commit
    (s : IasAvbVideoRingBufferShm) (p offset_a numBuffers : Z)
    (tsAccess tsPurge : timespec) :
  reachable s →
  2 * mNumBuffers s <= 2 ^ 32 →
  mWriteInProgress s = true →
  is_u32 numBuffers →
  numBuffers <= mAllowedToWrite s →
  ∃ s',
    endAccess eIasRingBufferAccessWrite p offset_a numBuffers
      tsAccess tsPurge s = (eIasRingBuffOk, s')
    ∧ mWriteOffset s' = (mWriteOffset s + numBuffers) mod mNumBuffers s
    ∧ mBufferLevel s' = mBufferLevel s + numBuffers
    ∧ mReadOffset s' = mReadOffset s
    ∧ mWriteInProgress s' = false
    ∧ mMutexWriteInProgress s' = false
    ∧ mAllowedToWrite s' = 0
    ∧ mWriterLastAccess s' = timespec_ns tsAccess
    ∧ mReaders s' = purgeEntry (timespec_ns tsPurge) <$> mReaders s
    ∧ ∀ p' off' n' ts',
        ba_offset (beginAccess eIasRingBufferAccessWrite p' (Some off')
                     (Some n') ts' s')
        = Some ((mWriteOffset s + numBuffers) mod mNumBuffers s).
Proof.
  intros Hs Hsmall Hw Hn Hle.
  destruct (reachable_Inv s Hs Hsmall) as [_ HN Hr Hwo Hl _ Ha _ Hi].
  unfold endAccess, endWrite. rewrite Hw. simpl.
  destruct (Z.gtb_spec numBuffers (mAllowedToWrite s)); [lia|].
  assert (Hsum : u32 (mWriteOffset s + numBuffers)
                 = mWriteOffset s + numBuffers)
    by (apply u32_id; unfold is_u32 in *; lia).
  assert (Hlev : u32 (mBufferLevel s + numBuffers)
                 = mBufferLevel s + numBuffers)
    by (apply u32_id; unfold is_u32 in *; lia).
  rewrite Hsum.
  destruct (Z.eqb_spec (mWriteOffset s + numBuffers) (mNumBuffers s))
    as [Hend|Hend].
  - eexists. split; [done|]. simpl. rewrite Hend, Z_mod_same_full, Hlev.
    split_and!; try done. intros. unfold beginAccess. simpl. by rewrite Hi.
  - destruct (Z.gtb_spec (mWriteOffset s + numBuffers) (mNumBuffers s));
      [unfold is_u32 in *; lia|].
    eexists. split; [done|]. simpl. rewrite Hlev.
    rewrite (Z.mod_small (mWriteOffset s + numBuffers))
      by (unfold is_u32 in *; lia).
    split_and!; try done. intros. unfold beginAccess. simpl. by rewrite Hi.
Qed.

(** The writer of [lent4] holds all four slots of the ring and commits
    them: the write offset wraps to [0 = (0 + 4) mod 4]. *)
Lemma write_commit_witness :
  ∃ s',
    endAccess eIasRingBufferAccessWrite 0 0 4 (at_sec 5) (at_sec 5)
      (after lent4 (ring 4)) = (eIasRingBuffOk, s')
    ∧ mWriteOffset s'
      = (mWriteOffset (after lent4 (ring 4)) + 4)
          mod mNumBuffers (after lent4 (ring 4))
    ∧ mBufferLevel s' = mBufferLevel (after lent4 (ring 4)) + 4
    ∧ mReadOffset s' = mReadOffset (after lent4 (ring 4))
    ∧ mWriteInProgress s' = false
    ∧ mMutexWriteInProgress s' = false
    ∧ mAllowedToWrite s' = 0
    ∧ mWriterLastAccess s' = timespec_ns (at_sec 5)
    ∧ mReaders s'
      = purgeEntry (timespec_ns (at_sec 5))
          <$> mReaders (after lent4 (ring 4))
    ∧ ∀ p' off' n' ts',
        ba_offset (beginAccess eIasRingBufferAccessWrite p' (Some off')
                     (Some n') ts' s')
        = Some ((mWriteOffset (after lent4 (ring 4)) + 4)
                  mod mNumBuffers (after lent4 (ring 4))).
Proof.
  apply (write_commit (after lent4 (ring 4)) 0 0 4 (at_sec 5) (at_sec 5)).
  - apply reachable_lent4.
  - vm_compute. discriminate.
  - vm_compute. reflexivity.
  - vm_compute. split; [discriminate|reflexivity].
  - vm_compute. discriminate.
Defined.

(** ** The level of a reader *)

(** X5: in a reachable ring of at most [2 ^ 31] slots the level of a
    registered reader, which [updateAvailable] reports for read access,
    is [(mWriteOffset - offset) mod mNumBuffers], the formula of the
    comment in [calculateReaderBufferLevel]; it is always below
    [mNumBuffers], so a reader is never told that the whole ring is
    readable. *)
Theorem reader_level_formula
    (s : IasAvbVideoRingBufferShm) (p out : Z) (reader : nat) :
  reachable s →
  2 * mNumBuffers s <= 2 ^ 32 →
  p ≠ 0 →
  findReader p s = Some reader →
  calculateReaderBufferLevel s reader
  = (mWriteOffset s - offset (readerAt s reader)) mod mNumBuffers s
  ∧ 0 <= calculateReaderBufferLevel s reader < mNumBuffers s
  ∧ updateAvailable eIasRingBufferAccessRead p (Some out) s
    = (eIasRingBuffOk,
       Some ((mWriteOffset s - offset (readerAt s reader))
               mod mNumBuffers s)).
Proof.
  intros Hs Hsmall Hp Hf.
  pose proof (reachable_Inv s Hs Hsmall) as HI.
  destruct (findReader_Some _ _ _ Hf) as (r & Hr & Hpid & Hat).
  assert (Hlive : live r) by (unfold live; congruence).
  pose proof (Inv_live_bounds s reader r HI Hr Hlive) as Hb.
  destruct HI as [_ HN Hro Hwo Hl _ _ _ Hi].
  rewrite Hat.
  assert (Hcalc : calculateReaderBufferLevel s reader
                  = (mWriteOffset s - offset r) mod mNumBuffers s
                  ∧ 0 <= calculateReaderBufferLevel s reader
                    < mNumBuffers s).
  { unfold calculateReaderBufferLevel. rewrite Hat. simpl.
    destruct (Z.geb_spec (mWriteOffset s) (offset r)).
    - rewrite u32_id by (unfold is_u32; lia).
      rewrite Z.mod_small by lia. lia.
    - rewrite (u32_id (mNumBuffers s - offset r))
        by (unfold is_u32; lia).
      rewrite u32_id by (unfold is_u32; lia).
      replace (mWriteOffset s - offset r)
        with (mNumBuffers s - offset r + mWriteOffset s
              + (-1) * mNumBuffers s) by lia.
      rewrite Z_mod_plus_full, Z.mod_small by lia. lia. }
  destruct Hcalc as [Hcalc Hrange]. split_and!; [done|lia..|].
  unfold updateAvailable. rewrite Hi, Hf. simpl. by rewrite Hcalc.
Qed.

Lemma reader_level_formula_witness :
  calculateReaderBufferLevel (after wrapped8 (ring 8)) 0
  = (mWriteOffset (after wrapped8 (ring 8))
     - offset (readerAt (after wrapped8 (ring 8)) 0))
      mod mNumBuffers (after wrapped8 (ring 8))
  ∧ 0 <= calculateReaderBufferLevel (after wrapped8 (ring 8)) 0
    < mNumBuffers (after wrapped8 (ring 8))
  ∧ updateAvailable eIasRingBufferAccessRead 7 (Some 0)
      (after wrapped8 (ring 8))
    = (eIasRingBuffOk,
       Some ((mWriteOffset (after wrapped8 (ring 8))
              - offset (readerAt (after wrapped8 (ring 8)) 0))
               mod mNumBuffers (after wrapped8 (ring 8)))).
Proof.
  apply (reader_level_formula (after wrapped8 (ring 8)) 7 0 0%nat).
  - apply reachable_wrapped8.
  - vm_compute. discriminate.
  - discriminate.
  - vm_compute. reflexivity.
Defined.

(** ** The read offset after a reader's commit *)

Lemma fold_smallerOf_attained l acc :
  fold_left smallerOf l acc = acc
  ∨ ∃ i r, l !! i = Some r ∧ live r
           ∧ offset r = fold_left smallerOf l acc.
Proof.
  revert acc. induction l as [|x l IH]; intros acc; simpl; [by left|].
  destruct (IH (smallerOf acc x)) as [Heq|(i & r & Hi & Hl & Ho)].
  - rewrite Heq. unfold smallerOf.
    destruct (Z.eqb_spec (pid x) 0); [by left|].
    destruct (offset x <? acc) eqn:E; [|by left].
    right. exists 0%nat, x. done.
  - right. by exists (S i), r.
Qed.

(** What a commit of [numBuffers] slots by the reader at [reader] makes
    of the control block, under the invariant. *)
Lemma endRead_effect reader r numBuffers ts s :
  Inv s → mReaders s !! reader = Some r → live r →
  is_u32 numBuffers → numBuffers <= allowedToRead r →
  let l := alter (λ r, set_offset (u32 (offset r + numBuffers))
                         (set_allowedToRead 0 r)) reader (mReaders s) in
  let m := fold_left smallerOf l UINT32_MAX in
  ∃ s',
    endRead reader numBuffers ts s = (eIasRingBuffOk, s')
    ∧ mReadOffset s <= m <= mNumBuffers s
    ∧ mBufferLevel s' = mBufferLevel s - (m - mReadOffset s)
    ∧ mWriteOffset s' = mWriteOffset s
    ∧ mAllowedToWrite s' = mAllowedToWrite s
    ∧ mNumBuffers s' = mNumBuffers s
    ∧ mReadOffset s' = (if decide (m = mNumBuffers s) then 0 else m)
    ∧ mReaders s'
      = alter (set_lastAccess (timespec_ns ts)) reader
          (if decide (m = mNumBuffers s) then resetOffset <$> l else l).
Proof.
  intros HI Hi Hlive Hn Hle l m.
  pose proof (Inv_live_bounds s reader r HI Hi Hlive) as Hb.
  destruct HI as [Hsm HN Hr Hw Hl Hc Ha Hrs Hin].
  assert (Hl1 : l !! reader
                = Some (set_offset (u32 (offset r + numBuffers))
                          (set_allowedToRead 0 r)))
    by (unfold l; by rewrite list_lookup_alter_eq, Hi).
  assert (Hoff : u32 (offset r + numBuffers) = offset r + numBuffers)
    by (apply u32_id; unfold is_u32 in *; lia).
  assert (Hlo : mReadOffset s <= m).
  { apply fold_smallerOf_bound; [unfold UINT32_MAX; lia|].
    apply Forall_alter.
    - eapply List.Forall_impl; [|exact Hrs]. intros e He Hle'.
      by destruct (He Hle').
    - intros x Hx _ _. simplify_eq. simpl. rewrite Hoff.
      unfold is_u32 in *. lia. }
  assert (Hhi : m <= offset r + numBuffers).
  { rewrite <- Hoff.
    apply (fold_smallerOf_lower l UINT32_MAX reader _ Hl1). done. }
  unfold endRead, readerAt. rewrite Hi. simpl.
  destruct (Z.gtb_spec numBuffers (allowedToRead r)); [lia|].
  unfold aggregateReaderOffset, updateSmallerReaderOffset. simpl.
  fold l. fold m.
  destruct (Z.eqb_spec m UINT32_MAX); [unfold UINT32_MAX in *; lia|].
  destruct (Z.eqb_spec m (mNumBuffers s)) as [Hm|Hm]; simpl.
  - destruct (Z.eqb_spec m (mNumBuffers s)) as [_|]; [|done].
    eexists. split; [done|]. simpl. unfold u32.
    rewrite decide_True by done.
    split_and!; try done; try lia; by rewrite decide_True.
  - destruct (Z.eqb_spec m (mNumBuffers s)) as [|_]; [done|].
    destruct (Z.ltb_spec m (mNumBuffers s)) as [_|]; [|lia].
    eexists. split; [done|]. simpl. unfold u32.
    rewrite decide_False by done.
    split_and!; try done; try lia; by rewrite decide_False.
Qed.

(** X6: in a reachable ring of at most [2 ^ 31] slots, after a
    successful [endAccess] for read access the read offset is the
    smallest offset of the live readers: no live reader is behind it
    and one is at it.  The write offset is untouched and the fill level
    does not grow. *)
Theorem read_commit_aggregates
    (s s' : IasAvbVideoRingBufferShm) (p offset_a numBuffers : Z)
    (tsAccess tsPurge : timespec) :
  reachable s →
  2 * mNumBuffers s <= 2 ^ 32 →
  p ≠ 0 →
  is_u32 numBuffers →
  endAccess eIasRingBufferAccessRead p offset_a numBuffers tsAccess tsPurge s
  = (eIasRingBuffOk, s') →
  Forall (λ r, live r → mReadOffset s' <= offset r) (mReaders s')
  ∧ (∃ i r, mReaders s' !! i = Some r ∧ live r
            ∧ offset r = mReadOffset s')
  ∧ mWriteOffset s' = mWriteOffset s
  ∧ mBufferLevel s' <= mBufferLevel s.
Proof.
  intros Hs Hsmall Hp Hn. unfold endAccess.
  pose proof (reachable_Inv s Hs Hsmall) as HI.
  destruct (findReader p s) as [reader|] eqn:E; [|done].
  destruct (findReader_Some _ _ _ E) as (r & Hr & Hpid & Hat).
  assert (Hlive : live r) by (unfold live; congruence).
  destruct (Z_le_gt_dec numBuffers (allowedToRead r)) as [Hle|Hgt].
  2:{ unfold endRead. rewrite Hat.
      destruct (Z.gtb_spec numBuffers (allowedToRead r)); [done|lia]. }
  destruct (endRead_effect reader r numBuffers tsAccess s HI Hr Hlive Hn Hle)
    as (s1 & -> & Hm & Hlev & Hwo & _ & HN & Hro & Hrs).
  intros [= <-].
  set (l := alter (λ r, set_offset (u32 (offset r + numBuffers))
                          (set_allowedToRead 0 r)) reader (mReaders s)) in *.
  set (m := fold_left smallerOf l UINT32_MAX) in *.
  assert (Hl1 : ∃ r1, l !! reader = Some r1 ∧ live r1).
  { unfold l. rewrite list_lookup_alter_eq, Hr. by eexists. }
  assert (Hmin : ∀ j e, l !! j = Some e → live e → m <= offset e)
    by (intros; by eapply fold_smallerOf_lower).
  assert (Hatt : ∃ i e, l !! i = Some e ∧ live e ∧ offset e = m).
  { destruct (fold_smallerOf_attained l UINT32_MAX) as [Heq|H]; [|done].
    fold m in Heq. destruct (inv_small s HI), (inv_num s HI).
    unfold UINT32_MAX in *. lia. }
  split_and!; [| |done|lia].
  - rewrite Hrs, Hro. apply Forall_alter.
    + case_decide.
      * apply Forall_fmap, Forall_lookup_2. intros j e _. simpl.
        unfold resetOffset, live. destruct (Z.eqb_spec (pid e) 0); [done|].
        simpl. lia.
      * apply Forall_lookup_2. intros j e Hj Hle'. by apply (Hmin j).
    + intros x _ Hx. done.
  - rewrite Hrs, Hro. case_decide.
    + destruct Hl1 as (r1 & Hr1 & Hlive1).
      exists reader. eexists. rewrite list_lookup_alter_eq, list_lookup_fmap, Hr1.
      simpl. split; [done|]. unfold resetOffset, live in *.
      destruct (Z.eqb_spec (pid r1) 0); [done|]. simpl. done.
    + destruct Hatt as (i & e & Hi & Hlive' & Ho).
      destruct (decide (reader = i)) as [->|Hne].
      * eexists i, _. rewrite list_lookup_alter_eq, Hi. simpl. done.
      * exists i, e. by rewrite list_lookup_alter_ne.
Qed.

(** Reader 7 of [wrapped8], alone at offset 4 with four slots to read,
    commits two of four granted: the read offset follows it to 6. *)
Lemma read_commit_aggregates_witness :
  let s := ba_state (beginAccess eIasRingBufferAccessRead 7 (Some 0) (Some 4)
                       (at_sec 2) (after wrapped8 (ring 8))) in
  let s' := (endAccess eIasRingBufferAccessRead 7 0 2 (at_sec 2) (at_sec 2)
               s).2 in
  mReadOffset s' = 6
  ∧ Forall (λ r, live r → mReadOffset s' <= offset r) (mReaders s')
  ∧ (∃ i r, mReaders s' !! i = Some r ∧ live r
            ∧ offset r = mReadOffset s')
  ∧ mWriteOffset s' = mWriteOffset s
  ∧ mBufferLevel s' <= mBufferLevel s.
Proof.
  intros s s'. split; [reflexivity|].
  apply (read_commit_aggregates s s' 7 0 2 (at_sec 2) (at_sec 2)).
  - apply (reachable_call
             (callBeginAccess eIasRingBufferAccessRead 7 (Some 0) (Some 4)
                (at_sec 2)) (after wrapped8 (ring 8))).
    + apply reachable_wrapped8.
    + apply (bool_decide_unpack _). vm_compute. exact I.
    + reflexivity.
  - vm_compute. discriminate.
  - discriminate.
  - vm_compute. split; [discriminate|reflexivity].
  - vm_compute. reflexivity.
Defined.

(** ** A full ring *)

Lemma waitWrite_loop_quiet events s r s' :
  Forall (λ e, wake_mBufferLevel e = mBufferLevel s) events →
  waitWrite_loop events s = Some (r, s') → s' = s.
Proof.
  intros Hq. revert s Hq.
  induction events as [|e events IH]; intros s Hq; simpl.
  - destruct (_ >? _); [done|]. by intros [= <- <-].
  - inversion Hq as [|? ? He Hq']; subst.
    destruct (_ >? _); [|by intros [= <- <-]].
    assert (Hs : set_mBufferLevel s (wake_mBufferLevel e) = s)
      by (rewrite He; by destruct s).
    rewrite Hs. destruct (cndres e).
    + by apply IH.
    + by intros [= <- <-].
    + by intros [= <- <-].
Qed.

Lemma jammed_stamp ts reader s :
  jammed s → jammed (updateReaderAccess ts reader s).
Proof.
  intros (Hl & Ha & Hrs). split_and!; [done..|]. simpl.
  apply Forall_alter; [done|]. intros r _ Hr. done.
Qed.

Lemma waitRead_loop_jammed reader numBuffers events s r s' :
  Forall (λ e, wake_mWriteOffset e = mWriteOffset s) events →
  waitRead_loop reader numBuffers events s = Some (r, s') →
  jammed s →
  jammed s' ∧ mWriteOffset s' = mWriteOffset s
  ∧ mReadOffset s' = mReadOffset s.
Proof.
  intros Hq. revert s Hq.
  induction events as [|e events IH]; intros s Hq; simpl.
  - destruct (_ <? _); [done|]. by intros [= <- <-].
  - inversion Hq as [|? ? He Hq']; subst.
    destruct (calculateReaderBufferLevel s reader <? numBuffers);
      [|by intros [= <- <-]].
    assert (Hs : set_mWriteOffset s (wake_mWriteOffset e) = s)
      by (rewrite He; by destruct s).
    rewrite Hs. destruct (cndres e).
    + intros H Hj. apply IH in H; [|done|by apply jammed_stamp].
      destruct H as (? & ? & ?). done.
    + intros [= <- <-] Hj. split; [by apply jammed_stamp|done].
    + intros [= <- <-] Hj. split; [by apply jammed_stamp|done].
Qed.

Lemma jammed_offsets s : Inv s → jammed s → mWriteOffset s = mReadOffset s.
Proof. intros [_ HN Hr Hw Hl Hc _ _ _] (Hfull & _). lia. Qed.

Lemma call_jammed c s s' :
  Inv s → free_zero (mReaders s) → legal c s → jammed s →
  call c s = Some s' →
  jammed s' ∧ mWriteOffset s' = mWriteOffset s
  ∧ mReadOffset s' = mReadOffset s.
Proof.
  intros HI Hz Hl Hj Hc.
  pose proof (jammed_offsets s HI Hj) as Hwr.
  destruct Hj as (Hfull & Haw & Hrs).
  destruct c; simpl in Hc, Hl.
  - (* addReader *)
    injection Hc as <-. unfold addReader.
    destruct (Z.leb_spec p 0); [done|].
    destruct (list_find _ _) as [[i e]|] eqn:E; [|done]. simpl.
    apply list_find_Some in E as (Hi & He & _).
    assert (e = noReader) as -> by by eapply (Forall_lookup_1 _ _ _ _ Hz).
    split; [|done]. split_and!; [done..|]. simpl.
    rewrite list_alter_alter_eq. apply Forall_alter; [done|].
    intros x Hx _ _. by simplify_eq.
  - (* removeReader *)
    injection Hc as <-. unfold removeReader.
    destruct (p >? 0); [|done]. simpl.
    split; [|done]. split_and!; [done..|]. simpl.
    apply Forall_fmap. eapply List.Forall_impl; [|exact Hrs].
    intros r Hr. simpl.
    destruct (clearEntry_cases p r) as [-> | ->]; [done|]. by intros [].
  - by injection Hc as <-.
  - (* beginAccess *)
    injection Hc as <-. destruct Hl as [Hp Hn]. unfold beginAccess.
    destruct offset_p, numBuffers_p as [n|], access; simpl; try done;
      destruct (mInitialized s); simpl; try done.
    + destruct (findReader p s) as [reader|] eqn:E; [|done].
      destruct (findReader_Some _ _ _ E) as (r & Hr & Hpid & _).
      assert (Hlive : live r) by (unfold live; rewrite Hpid; by apply Hp).
      destruct (beginRead_grant reader r n ts s HI Hr Hlive Hn)
        as (_ & -> & Hrange & Hlevel & _). simpl.
      destruct (Forall_lookup_1 _ _ _ _ Hrs Hr Hlive) as [Ho _].
      assert (specReadGrant s r n = 0) as ->.
      { unfold specReaderLevel in Hlevel. case_decide; lia. }
      split; [|done]. split_and!; [done..|]. simpl.
      apply Forall_alter; [done|]. intros x Hx Hok _. simplify_eq.
      simpl. by destruct (Hok Hlive).
    + destruct (mWriteInProgress s); [done|]. unfold beginWrite. simpl.
      split; [|done]. destruct HI as [Hsm HN Hro Hwo Hlv _ _ _ _].
      split_and!; simpl; [done| |done].
      simpl in Hn. unfold is_u32, u32 in *. split_ifs; lia.
  - (* endAccess *)
    injection Hc as <-. destruct Hl as [Hp Hn]. unfold endAccess.
    destruct access; [done| |].
    + destruct (findReader p s) as [reader|] eqn:E; [|done].
      destruct (findReader_Some _ _ _ E) as (r & Hr & Hpid & Hat).
      assert (Hlive : live r) by (unfold live; rewrite Hpid; by apply Hp).
      destruct (Forall_lookup_1 _ _ _ _ Hrs Hr Hlive) as [Ho Hal].
      destruct (Z_le_gt_dec numBuffers (allowedToRead r)) as [Hle|Hgt].
      2:{ unfold endRead. rewrite Hat.
          by destruct (Z.gtb_spec numBuffers (allowedToRead r)); [|lia]. }
      assert (numBuffers = 0) as -> by (unfold is_u32 in Hn; lia).
      destruct (endRead_effect reader r 0 tsAccess s HI Hr Hlive Hn Hle)
        as (s1 & -> & Hm & Hlev & Hwo & Ha & HN & Hro & Hrs1). simpl.
      set (l := alter (λ r, set_offset (u32 (offset r + 0))
                              (set_allowedToRead 0 r)) reader (mReaders s))
        in *.
      set (m := fold_left smallerOf l UINT32_MAX) in *.
      assert (Hl1 : l !! reader
                    = Some (set_offset (u32 (offset r + 0))
                              (set_allowedToRead 0 r)))
        by (unfold l; by rewrite list_lookup_alter_eq, Hr).
      assert (Hu : u32 (offset r + 0) = offset r).
      { destruct HI as [Hsm HN' Hro' _ _ _ _ _ _].
        rewrite Z.add_0_r. apply u32_id. unfold is_u32. lia. }
      assert (Hmle : m <= mReadOffset s).
      { rewrite <- Ho, <- Hu.
        apply (fold_smallerOf_lower l UINT32_MAX reader _ Hl1). done. }
      assert (Hmeq : m = mReadOffset s) by lia.
      destruct HI as [_ _ Hro' _ _ _ _ _ _].
      rewrite decide_False in Hro by lia.
      rewrite decide_False in Hrs1 by lia.
      split; [|split; congruence].
      split_and!; [lia|lia|]. rewrite Hrs1, Hro, Hmeq.
      apply Forall_alter; [|done]. unfold l.
      apply Forall_alter; [done|]. intros x Hx Hok _. simplify_eq.
      simpl. by rewrite Hu.
    + destruct (mWriteInProgress s); [|done]. unfold endWrite.
      destruct (Z.gtb_spec numBuffers (mAllowedToWrite s)); [done|].
      assert (numBuffers = 0) as -> by (unfold is_u32 in Hn; lia).
      destruct HI as [Hsm HN Hro Hwo Hlv _ _ _ _]. simpl.
      rewrite !Z.add_0_r, !u32_id by (unfold is_u32; lia).
      destruct (Z.eqb_spec (mWriteOffset s) (mNumBuffers s)); [lia|].
      destruct (Z.gtb_spec (mWriteOffset s) (mNumBuffers s)); [lia|].
      simpl. split; [|done]. split_and!; [done..|]. simpl.
      apply Forall_fmap. eapply List.Forall_impl; [|exact Hrs].
      intros r Hr. simpl.
      destruct (purgeEntry_cases (timespec_ns tsPurge) r) as [-> | ->];
        [done|]. by intros [].
  - (* waitRead *)
    destruct Hl as (Hp & Hn & Hq). unfold waitRead in Hc.
    destruct (findReader p s) as [reader|] eqn:E;
      [|by injection Hc as <-].
    destruct (_ || _); [by injection Hc as <-|].
    apply fmap_Some in Hc as [[r s1] [Hc ->]]. simpl.
    apply waitRead_loop_jammed in Hc.
    + destruct Hc as (Hj' & -> & ->). split; [done|].
      simpl. by destruct (_ <? _).
    + simpl. by destruct (_ <? _).
    + apply jammed_stamp. by destruct (_ <? _).
  - (* waitWrite *)
    destruct Hl as (Hn & Hq). unfold waitWrite in Hc.
    destruct (_ || _); [by injection Hc as <-|].
    apply fmap_Some in Hc as [[r s1] [Hc ->]]. simpl.
    apply waitWrite_loop_quiet in Hc as ->; done.
Qed.

Lemma jammed_grants access p off n ts s :
  Inv s → jammed s → is_u32 n →
  (access = eIasRingBufferAccessRead → p ≠ 0) →
  ba_result (beginAccess access p (Some off) (Some n) ts s)
  = eIasRingBuffOk →
  ba_numBuffers (beginAccess access p (Some off) (Some n) ts s) = Some 0.
Proof.
  intros HI Hj Hn Hp.
  pose proof (jammed_offsets s HI Hj) as Hwr.
  destruct Hj as (Hfull & Haw & Hrs).
  unfold beginAccess. rewrite (inv_initialized s HI).
  destruct access; simpl; [done| |].
  - destruct (findReader p s) as [reader|] eqn:E; [|done]. intros _.
    destruct (findReader_Some _ _ _ E) as (r & Hr & Hpid & _).
    assert (Hlive : live r) by (unfold live; rewrite Hpid; by apply Hp).
    destruct (beginRead_grant reader r n ts s HI Hr Hlive Hn)
      as (_ & -> & Hrange & Hlevel & _). simpl.
    destruct (Forall_lookup_1 _ _ _ _ Hrs Hr Hlive) as [Ho _].
    f_equal. unfold specReaderLevel in Hlevel. case_decide; lia.
  - destruct (mWriteInProgress s); [done|]. intros _.
    unfold beginWrite. simpl. f_equal.
    destruct HI as [Hsm HN Hro Hwo Hlv _ _ _ _].
    unfold is_u32, u32 in *. split_ifs; lia.
Qed.

(** X7: a ring of at most [2 ^ 31] slots that is full while no live
    reader is ahead of the read offset and nobody holds a grant (the
    state right after the writer has filled a ring whose readers have
    not read yet) never moves again: after any sequence of calls the
    fill level is still [mNumBuffers], the offsets are where they were,
    and every borrow that succeeds, for read or for write access, is
    granted no slot. *)
Theorem full_ring_stays_full
    (cs : list Call) (s s' : IasAvbVideoRingBufferShm) :
  reachable s →
  2 * mNumBuffers s <= 2 ^ 32 →
  jammed s →
  legal_calls cs s →
  calls cs s = Some s' →
  mBufferLevel s' = mNumBuffers s'
  ∧ mWriteOffset s' = mWriteOffset s
  ∧ mReadOffset s' = mReadOffset s
  ∧ ∀ access p off n ts,
      is_u32 n →
      (access = eIasRingBufferAccessRead → p ≠ 0) →
      ba_result (beginAccess access p (Some off) (Some n) ts s')
      = eIasRingBuffOk →
      ba_numBuffers (beginAccess access p (Some off) (Some n) ts s')
      = Some 0.
Proof.
  intros Hs Hsmall Hj Hl Hrun.
  assert (H : reachable s' ∧ mNumBuffers s' = mNumBuffers s ∧ jammed s'
              ∧ mWriteOffset s' = mWriteOffset s
              ∧ mReadOffset s' = mReadOffset s).
  { revert s Hs Hsmall Hj Hl Hrun.
    induction cs as [|c cs IH]; simpl; intros s Hs Hsmall Hj Hl.
    - by intros [= <-].
    - destruct Hl as [Hc Hl]. destruct (call c s) as [s1|] eqn:E; [|done].
      intros Hrun.
      assert (Hs1 : reachable s1) by by eapply reachable_call.
      pose proof (call_mNumBuffers c s s1 E) as HN.
      destruct (call_jammed c s s1) as (Hj1 & Hwo & Hro);
        [by apply reachable_Inv|by apply reachable_free_zero|done..|].
      destruct (IH s1) as (? & ? & ? & ? & ?); [done|lia|done..|].
      split_and!; [done|congruence|done|congruence|congruence]. }
  destruct H as (Hs' & HN & Hj' & Hwo & Hro).
  assert (HI : Inv s') by (apply reachable_Inv; [done|lia]).
  split_and!; [apply Hj'|done..|].
  intros. by apply jammed_grants.
Qed.

(** The first scenario of the specification: reader 7 is registered,
    the writer fills the ring of four slots; the reader then tries to
    borrow four slots and commit them, and the writer two. *)
Lemma full_ring_stays_full_witness :
  let s := after jammed4 (ring 4) in
  let s' := after (transfer eIasRingBufferAccessRead 7 4 0
                   ++ transfer eIasRingBufferAccessWrite 0 2 0) s in
  mBufferLevel s' = mNumBuffers s'
  ∧ mWriteOffset s' = mWriteOffset s
  ∧ mReadOffset s' = mReadOffset s
  ∧ ∀ access p off n ts,
      is_u32 n →
      (access = eIasRingBufferAccessRead → p ≠ 0) →
      ba_result (beginAccess access p (Some off) (Some n) ts s')
      = eIasRingBuffOk →
      ba_numBuffers (beginAccess access p (Some off) (Some n) ts s')
      = Some 0.
Proof.
  intros s s'.
  apply (full_ring_stays_full
           (transfer eIasRingBufferAccessRead 7 4 0
            ++ transfer eIasRingBufferAccessWrite 0 2 0) s s').
  - apply reachable_jammed4.
  - vm_compute. discriminate.
  - apply (bool_decide_unpack _). vm_compute. exact I.
  - apply (bool_decide_unpack _). vm_compute. exact I.
  - vm_compute. reflexivity.
Defined.

(** ** Deregistration *)

(** X8: [removeReader] returns [eIasRingBuffOk] exactly when the id is
    positive and in the table, and changes nothing otherwise.  After
    it no entry carries the id, however many did, so the id is unknown
    to [findReader]; the entries of other ids are left as they were and
    the cleared ones are free and all zero. *)
Theorem removeReader_deregisters (p : Z) (s : IasAvbVideoRingBufferShm) :
  ((removeReader p s).1 = eIasRingBuffOk
   ↔ 0 < p ∧ ∃ i r, mReaders s !! i = Some r ∧ pid r = p)
  ∧ ((removeReader p s).1 ≠ eIasRingBuffOk →
     (removeReader p s).1 = eIasRingBuffInvalidParam
     ∧ (removeReader p s).2 = s)
  ∧ (0 < p → findReader p (removeReader p s).2 = None)
  ∧ (∀ i r, mReaders s !! i = Some r →
       mReaders (removeReader p s).2 !! i
       = Some (if decide (0 < p ∧ pid r = p) then noReader else r)).
Proof.
  unfold removeReader. destruct (Z.gtb_spec p 0) as [Hgt|Hle]; simpl.
  - assert (Hex : existsb (λ r, pid r =? p) (mReaders s) = true
                  ↔ ∃ i r, mReaders s !! i = Some r ∧ pid r = p).
    { rewrite existsb_exists. split.
      - intros (r & Hin & Hr).
        apply list_elem_of_In, list_elem_of_lookup in Hin as [i Hi].
        exists i, r. split; [done|lia].
      - intros (i & r & Hi & Hr). exists r. split; [|lia].
        apply list_elem_of_In, list_elem_of_lookup. by exists i. }
    split_and!.
    + destruct (existsb _ _); [|split; [done|]].
      * split; [intros _; split; [lia|by apply Hex]|done].
      * intros [_ Hx]. by apply Hex in Hx.
    + destruct (existsb _ _) eqn:E; [done|]. intros _. split; [done|].
      assert (Hsame : clearEntry p <$> mReaders s = mReaders s).
      { apply list_eq. intros i. rewrite list_lookup_fmap.
        destruct (mReaders s !! i) as [r|] eqn:Hi; [|done]. simpl.
        unfold clearEntry. destruct (Z.eqb_spec (pid r) p) as [Hp|]; [|done].
        assert (false = true); [|done]. apply Hex. by exists i, r. }
      rewrite Hsame. by destruct s.
    + intros _. apply findReader_None. simpl. apply Forall_fmap.
      apply Forall_lookup_2. intros i r _. simpl. unfold clearEntry.
      destruct (Z.eqb_spec (pid r) p); simpl; lia.
    + intros i r Hi. rewrite list_lookup_fmap, Hi. simpl. unfold clearEntry.
      destruct (Z.eqb_spec (pid r) p); case_decide; try done; lia.
  - split_and!.
    + split; [done|lia].
    + done.
    + lia.
    + intros i r Hi. rewrite Hi. case_decide; [lia|done].
Qed.

(** ** Registration *)

(** X9: [addReader] with a positive id returns
    [eIasRingBuffTooManyReaders] exactly when every entry of the table
    is live, and then changes nothing.  Otherwise it returns
    [eIasRingBuffOk] and only the first free entry changes: it takes
    the id, the current read offset and the clock reading, and keeps
    the [allowedToRead] it had; [findReader] knows the id afterwards,
    at that entry if the id was not registered before. *)
Theorem addReader_registers
    (p : Z) (ts : timespec) (s : IasAvbVideoRingBufferShm) :
  0 < p →
  ((addReader p ts s).1 = eIasRingBuffTooManyReaders
   ↔ Forall live (mReaders s))
  ∧ (Forall live (mReaders s) → (addReader p ts s).2 = s)
  ∧ (∀ i e,
       mReaders s !! i = Some e → pid e = 0 →
       (∀ j r, mReaders s !! j = Some r → (j < i)%nat → live r) →
       (addReader p ts s).1 = eIasRingBuffOk
       ∧ mReaders (addReader p ts s).2
         = <[i := {| pid := p; offset := mReadOffset s;
                     lastAccess := timespec_ns ts;
                     allowedToRead := allowedToRead e |}]> (mReaders s)
       ∧ is_Some (findReader p (addReader p ts s).2)
       ∧ (Forall (λ r, pid r ≠ p) (mReaders s) →
          findReader p (addReader p ts s).2 = Some i)).
Proof.
  intros Hp. unfold addReader. destruct (Z.leb_spec p 0); [lia|].
  destruct (list_find _ _) as [[i e]|] eqn:E.
  - apply list_find_Some in E as (Hi & He & Hbefore). simpl.
    assert (Hnot : ¬ Forall live (mReaders s)).
    { intros Hall. by destruct (Forall_lookup_1 _ _ _ _ Hall Hi). }
    split_and!; [split; [done|by intros ?]|by intros ?|].
    intros i' e' Hi' He' Hbefore'.
    assert (i' = i) as ->.
    { destruct (Nat.lt_trichotomy i' i) as [Hlt|[->|Hlt]]; [|done|].
      - by destruct (Hbefore i' e' Hi' Hlt).
      - by destruct (Hbefore' i e Hi Hlt). }
    simplify_eq.
    assert (Hl : alter (set_lastAccess (timespec_ns ts)) i
                   (alter (λ r, set_offset (mReadOffset s) (set_pid p r)) i
                      (mReaders s))
                 = <[i := {| pid := p; offset := mReadOffset s;
                             lastAccess := timespec_ns ts;
                             allowedToRead := allowedToRead e |}]>
                     (mReaders s)).
    { rewrite list_alter_alter_eq. apply list_eq. intros j.
      destruct (decide (i = j)) as [<-|].
      - rewrite list_lookup_alter_eq, Hi.
        rewrite list_lookup_insert_eq by by eapply lookup_lt_Some. done.
      - by rewrite list_lookup_alter_ne, list_lookup_insert_ne. }
    split_and!; [done|simpl; by rewrite Hl| |].
    + unfold findReader. simpl. rewrite Hl. apply fmap_is_Some.
      apply (list_find_elem_of _ _
               {| pid := p; offset := mReadOffset s;
                  lastAccess := timespec_ns ts;
                  allowedToRead := allowedToRead e |}); [|done].
      apply list_elem_of_lookup. exists i.
      apply list_lookup_insert_eq. by eapply lookup_lt_Some.
    + intros Hfresh. unfold findReader. simpl. rewrite Hl.
      apply fmap_Some. eexists (i, _). split; [|done].
      apply list_find_Some. split_and!.
      * apply list_lookup_insert_eq. by eapply lookup_lt_Some.
      * done.
      * intros j y Hj Hlt. rewrite list_lookup_insert_ne in Hj by lia.
        by apply (Forall_lookup_1 _ _ _ _ Hfresh Hj).
  - apply list_find_None in E. simpl.
    assert (Hall : Forall live (mReaders s)) by done.
    split_and!; [done|done|].
    intros i e Hi He. by destruct (Forall_lookup_1 _ _ _ _ Hall Hi).
Qed.

Lemma addReader_registers_witness :
  (addReader 9 (at_sec 3) (after once7 (ring 4))).1 = eIasRingBuffOk
  ∧ mReaders (addReader 9 (at_sec 3) (after once7 (ring 4))).2
    = <[1%nat := {| pid := 9; offset := 0; lastAccess := 3000000000;
                    allowedToRead := 0 |}]>
        (mReaders (after once7 (ring 4)))
  ∧ findReader 9 (addReader 9 (at_sec 3) (after once7 (ring 4))).2
    = Some 1%nat.
Proof.
  destruct (addReader_registers 9 (at_sec 3) (after once7 (ring 4)))
    as (_ & _ & H); [lia|].
  destruct (H 1%nat noReader) as (H1 & H2 & _ & H4).
  - reflexivity.
  - reflexivity.
  - intros [|j] r Hj Hlt; [|lia]. vm_compute in Hj.
    injection Hj as <-. discriminate.
  - split_and!; [exact H1|exact H2|].
    apply H4. apply (bool_decide_unpack _). vm_compute. exact I.
Defined.

(** ** The offset of a reader after its commit *)

(** X10: in a reachable ring of at most [2 ^ 31] slots a successful
    [endAccess] for read access commits no more than the reader was
    granted and does not pass the physical end of the array.  The
    reader's entry keeps its id, has nothing left to commit and carries
    the clock reading.  Its offset advances by the committed count and
    stays there, also at [mNumBuffers], as long as some other live
    reader is short of the physical end; it goes back to [0], with the
    read offset and every other live reader, exactly when the commit
    brings the last reader to the end. *)
Theorem read_commit_advances
    (s s' : IasAvbVideoRingBufferShm) (p offset_a numBuffers : Z)
    (tsAccess tsPurge : timespec) (reader : nat) :
  reachable s →
  2 * mNumBuffers s <= 2 ^ 32 →
  p ≠ 0 →
  is_u32 numBuffers →
  findReader p s = Some reader →
  endAccess eIasRingBufferAccessRead p offset_a numBuffers tsAccess tsPurge s
  = (eIasRingBuffOk, s') →
  numBuffers <= allowedToRead (readerAt s reader)
  ∧ offset (readerAt s reader) + numBuffers <= mNumBuffers s
  ∧ pid (readerAt s' reader) = p
  ∧ allowedToRead (readerAt s' reader) = 0
  ∧ lastAccess (readerAt s' reader) = timespec_ns tsAccess
  ∧ (all_at_end s reader numBuffers →
     offset (readerAt s' reader) = 0 ∧ mReadOffset s' = 0
     ∧ Forall (λ e, live e → offset e = 0) (mReaders s'))
  ∧ (¬ all_at_end s reader numBuffers →
     offset (readerAt s' reader)
     = offset (readerAt s reader) + numBuffers).
Proof.
  intros Hs Hsmall Hp Hn E. unfold endAccess. rewrite E.
  pose proof (reachable_Inv s Hs Hsmall) as HI.
  destruct (findReader_Some _ _ _ E) as (r & Hr & Hpid & Hat).
  assert (Hlive : live r) by (unfold live; congruence).
  rewrite Hat.
  destruct (Z_le_gt_dec numBuffers (allowedToRead r)) as [Hle|Hgt].
  2:{ unfold endRead. rewrite Hat.
      destruct (Z.gtb_spec numBuffers (allowedToRead r)); [done|lia]. }
  pose proof (Inv_live_bounds s reader r HI Hr Hlive) as Hb.
  pose proof (inv_read s HI) as Hro0. pose proof (inv_num s HI) as HN0.
  destruct (endRead_effect reader r numBuffers tsAccess s HI Hr Hlive Hn Hle)
    as (s1 & -> & Hm & _ & _ & _ & HN & Hro & Hrs).
  intros [= <-].
  set (l := alter (λ r, set_offset (u32 (offset r + numBuffers))
                          (set_allowedToRead 0 r)) reader (mReaders s)) in *.
  set (m := fold_left smallerOf l UINT32_MAX) in *.
  assert (Hoff : u32 (offset r + numBuffers) = offset r + numBuffers)
    by (apply u32_id; unfold is_u32 in *; lia).
  assert (Hl1 : l !! reader
                = Some (set_offset (offset r + numBuffers)
                          (set_allowedToRead 0 r)))
    by (unfold l; by rewrite list_lookup_alter_eq, Hr, <- Hoff).
  assert (Hend : m = mNumBuffers s ↔ all_at_end s reader numBuffers).
  { unfold all_at_end. rewrite Hat. split.
    - intros Hm'. split.
      + pose proof (fold_smallerOf_lower l UINT32_MAX reader _ Hl1 Hlive)
          as Hlow. fold m in Hlow. simpl in Hlow. lia.
      + intros j e Hne Hj Hle'.
        assert (Hlj : l !! j = Some e)
          by (unfold l; by rewrite list_lookup_alter_ne).
        pose proof (fold_smallerOf_lower l UINT32_MAX j e Hlj Hle') as Hlow.
        fold m in Hlow.
        pose proof (Inv_live_bounds s j e HI Hj Hle'). lia.
    - intros [Hr1 Hothers].
      assert (mNumBuffers s <= m); [|lia].
      apply fold_smallerOf_bound; [unfold UINT32_MAX; lia|].
      apply Forall_lookup_2. intros j e Hj Hle'.
      destruct (decide (j = reader)) as [->|Hne].
      + rewrite Hl1 in Hj. injection Hj as <-. simpl. lia.
      + unfold l in Hj. rewrite list_lookup_alter_ne in Hj by done.
        rewrite (Hothers j e); done. }
  assert (Hnew : readerAt s1 reader
                 = set_lastAccess (timespec_ns tsAccess)
                     (if decide (m = mNumBuffers s)
                      then resetOffset (set_offset (offset r + numBuffers)
                                          (set_allowedToRead 0 r))
                      else set_offset (offset r + numBuffers)
                             (set_allowedToRead 0 r))).
  { unfold readerAt. rewrite Hrs, list_lookup_alter_eq.
    case_decide; [rewrite list_lookup_fmap|]; by rewrite Hl1. }
  rewrite Hnew. unfold resetOffset. simpl.
  destruct (Z.eqb_spec (pid r) 0) as [|_]; [done|].
  split_and!; [lia|lia|by case_decide|by case_decide|by case_decide| |].
  - intros Hall%Hend. rewrite decide_True by done.
    split_and!; [done|by rewrite Hro, decide_True|].
    rewrite Hrs, decide_True by done. apply Forall_alter.
    + apply Forall_fmap, Forall_lookup_2. intros j e _. simpl.
      unfold resetOffset, live. destruct (Z.eqb_spec (pid e) 0); [done|].
      done.
    + intros x _ Hx. done.
  - intros Hnot. rewrite decide_False; [done|]. by rewrite Hend.
Qed.

(** Ring of eight slots, reader 7 at offset 4 with four slots granted:
    committing the four takes the only reader to the end, and it wraps
    to [0] with the read offset. *)
Lemma read_commit_advances_witness :
  let s := ba_state (beginAccess eIasRingBufferAccessRead 7 (Some 0) (Some 4)
                       (at_sec 2) (after wrapped8 (ring 8))) in
  let s' := (endAccess eIasRingBufferAccessRead 7 0 4 (at_sec 2) (at_sec 2)
               s).2 in
  all_at_end s 0 4
  ∧ offset (readerAt s 0) = 4
  ∧ offset (readerAt s' 0) = 0 ∧ mReadOffset s' = 0.
Proof.
  intros s s'.
  assert (Hall : all_at_end s 0 4).
  { split; [reflexivity|]. intros j e Hne Hj Hl.
    destruct j as [|j]; [done|]. exfalso. apply Hl. clear Hl Hne.
    vm_compute in Hj.
    do 15 (destruct j as [|j]; [by injection Hj as <-|]). done. }
  split; [exact Hall|]. split; [reflexivity|].
  destruct (read_commit_advances s s' 7 0 4 (at_sec 2) (at_sec 2) 0%nat)
    as (_ & _ & _ & _ & _ & Hwrap & _).
  - apply (reachable_call
             (callBeginAccess eIasRingBufferAccessRead 7 (Some 0) (Some 4)
                (at_sec 2)) (after wrapped8 (ring 8))).
    + apply reachable_wrapped8.
    + apply (bool_decide_unpack _). vm_compute. exact I.
    + reflexivity.
  - vm_compute. discriminate.
  - discriminate.
  - vm_compute. split; [discriminate|reflexivity].
  - vm_compute. reflexivity.
  - vm_compute. reflexivity.
  - destruct (Hwrap Hall) as (H1 & H2 & _). split; [exact H1|exact H2].
Defined.

(** ** A fresh ring *)

(** X11: after a successful [init] of a freshly constructed object the
    ring is empty and has no reader: every read-side call with a
    nonzero id is refused with [eIasRingBuffInvalidParam],
    [updateAvailable] for write access reports the whole ring, and
    [beginAccess] for write access grants the request, or the whole
    ring if the request is larger, from offset [0]. *)
Theorem fresh_ring
    (packetSize numBuffers dataBuf : Z) (shared : bool)
    (s : IasAvbVideoRingBufferShm) :
  is_u32 numBuffers →
  init packetSize numBuffers dataBuf shared constructed
  = (eIasRingBuffOk, s) →
  mInitialized s = true ∧ mNumBuffers s = numBuffers ∧ 0 < numBuffers
  ∧ mBufferSize s = packetSize ∧ mDataBuf s = dataBuf
  ∧ mBufferLevel s = 0 ∧ mWriteOffset s = 0 ∧ mReadOffset s = 0
  ∧ (∀ p, p ≠ 0 →
       findReader p s = None
       ∧ (∀ off n ts,
            ba_result (beginAccess eIasRingBufferAccessRead p (Some off)
                         (Some n) ts s) = eIasRingBuffInvalidParam)
       ∧ (∀ off n ts ts',
            (endAccess eIasRingBufferAccessRead p off n ts ts' s).1
            = eIasRingBuffInvalidParam)
       ∧ (∀ n t ts events,
            waitRead p n t ts events s
            = Some (eIasRingBuffInvalidParam, s)))
  ∧ (∀ p n, updateAvailable eIasRingBufferAccessWrite p (Some n) s
            = (eIasRingBuffOk, Some numBuffers))
  ∧ (∀ p off n ts, is_u32 n →
       let b := beginAccess eIasRingBufferAccessWrite p (Some off) (Some n)
                  ts s in
       ba_result b = eIasRingBuffOk ∧ ba_offset b = Some 0
       ∧ ba_numBuffers b = Some (Z.min n numBuffers)).
Proof.
  intros Hn. unfold init.
  destruct (Z.eqb_spec packetSize 0) as [|Hps]; [done|].
  destruct (Z.eqb_spec numBuffers 0) as [|Hn0]; [done|].
  destruct (Z.eqb_spec dataBuf 0) as [|Hbuf]; [done|]. simpl.
  intros [= <-]. simpl.
  assert (Hnone : ∀ p, p ≠ 0 →
            findReader p (set_geometry (set_mShared constructed shared)
                            packetSize numBuffers dataBuf) = None).
  { intros p Hp. apply findReader_None.
    apply (Forall_replicate _ cIasVideoRingBufferShmMaxReaders noReader).
    simpl. congruence. }
  split_and!; try done.
  - unfold is_u32 in Hn. lia.
  - intros p Hp. pose proof (Hnone p Hp) as E.
    split_and!; [done| | |].
    + intros off n ts. unfold beginAccess. simpl. by rewrite E.
    + intros off n ts ts'. unfold endAccess. by rewrite E.
    + intros n t ts events. unfold waitRead. by rewrite E.
  - intros p n. unfold updateAvailable. simpl. do 2 f_equal.
    rewrite Z.sub_0_r. by apply u32_id.
  - intros p off n ts Hn'. split_and!; [done..|]. f_equal.
    rewrite !Z.sub_0_r, Z.add_0_l, (u32_id numBuffers) by done.
    destruct (Z.gtb_spec n numBuffers).
    + rewrite (u32_id numBuffers) by done.
      destruct (Z.geb_spec numBuffers numBuffers); lia.
    + rewrite (u32_id n) by done.
      destruct (Z.geb_spec n numBuffers); lia.
Qed.

Lemma fresh_ring_witness :
  mBufferLevel (ring 4) = 0
  ∧ findReader 7 (ring 4) = None
  ∧ ba_numBuffers (beginAccess eIasRingBufferAccessWrite 0 (Some 0) (Some 9)
                     (at_sec 1) (ring 4)) = Some 4.
Proof.
  destruct (fresh_ring 1 4 1 false (ring 4))
    as (_ & _ & _ & _ & _ & Hl & _ & _ & Hr & _ & Hw).
  - vm_compute. split; [discriminate|reflexivity].
  - reflexivity.
  - split; [exact Hl|]. split.
    + apply (Hr 7). discriminate.
    + apply (Hw 0 0 9 (at_sec 1)). vm_compute.
      split; [discriminate|reflexivity].
Defined.

(** ** Waiting for data *)

Lemma level_depends_on s1 s2 reader :
  mNumBuffers s1 = mNumBuffers s2 →
  mWriteOffset s1 = mWriteOffset s2 →
  offset (readerAt s1 reader) = offset (readerAt s2 reader) →
  calculateReaderBufferLevel s1 reader = calculateReaderBufferLevel s2 reader.
Proof. unfold calculateReaderBufferLevel. by intros -> -> ->. Qed.

Lemma stamp_keeps_offset ts reader s i :
  offset (readerAt (updateReaderAccess ts reader s) i)
  = offset (readerAt s i).
Proof.
  unfold readerAt, updateReaderAccess. simpl.
  destruct (decide (reader = i)) as [->|].
  - rewrite list_lookup_alter_eq. by destruct (mReaders s !! i).
  - by rewrite list_lookup_alter_ne.
Qed.

Lemma stamp_level ts reader s wo i :
  calculateReaderBufferLevel
    (set_mWriteOffset (updateReaderAccess ts reader s) wo) i
  = calculateReaderBufferLevel (set_mWriteOffset s wo) i.
Proof.
  apply level_depends_on; [done..|].
  apply (stamp_keeps_offset ts reader (set_mWriteOffset s wo) i).
Qed.

Lemma stamp_twice t t1 w w1 reader s :
  updateReaderAccess t reader
    (set_mWriteOffset
       (updateReaderAccess t1 reader (set_mWriteOffset s w1)) w)
  = updateReaderAccess t reader (set_mWriteOffset s w).
Proof.
  destruct s. unfold updateReaderAccess, set_mWriteOffset, set_mReaders.
  simpl. f_equal. rewrite list_alter_alter_eq. by apply list_alter_ext.
Qed.

Lemma waitRead_loop_accepts reader numBuffers events s r s' :
  waitRead_loop reader numBuffers events s = Some (r, s') →
  r ≠ eIasRingBuffInvalidParam.
Proof.
  revert s. induction events as [|e events IH]; intros s; simpl.
  - destruct (_ <? _); [done|]. by intros [= <- <-].
  - destruct (_ <? _); [|by intros [= <- <-]].
    destruct (cndres e).
    + apply IH.
    + intros [= <- <-]. by destruct (_ <? _).
    + by intros [= <- <-].
Qed.

Lemma waitRead_loop_starving reader numBuffers oks e rest s :
  calculateReaderBufferLevel s reader < numBuffers →
  Forall (starving s reader numBuffers) oks →
  let woken := updateReaderAccess (wake_ts e) reader
                 (set_mWriteOffset s (wake_mWriteOffset e)) in
  (cndres e = eIasTimeout →
   waitRead_loop reader numBuffers (oks ++ e :: rest) s
   = Some (if decide (calculateReaderBufferLevel woken reader < numBuffers)
           then eIasRingBuffTimeOut else eIasRingBuffOk, woken))
  ∧ (cndres e = eIasCondVarFailed →
     waitRead_loop reader numBuffers (oks ++ e :: rest) s
     = Some (eIasRingBuffCondWaitFailed, woken)).
Proof.
  intros Hlow Hoks. revert s Hlow Hoks.
  induction oks as [|e1 oks IH]; intros s Hlow Hoks woken; simpl.
  - destruct (Z.ltb_spec (calculateReaderBufferLevel s reader) numBuffers);
      [|lia].
    split; intros ->; [|done]. fold woken.
    destruct (Z.ltb_spec (calculateReaderBufferLevel woken reader)
                numBuffers); case_decide; done || lia.
  - inversion Hoks as [|? ? [Hok Hl1] Hoks']; subst.
    destruct (Z.ltb_spec (calculateReaderBufferLevel s reader) numBuffers);
      [|lia].
    rewrite Hok.
    set (s1 := updateReaderAccess (wake_ts e1) reader
                 (set_mWriteOffset s (wake_mWriteOffset e1))).
    assert (Hw : updateReaderAccess (wake_ts e) reader
                   (set_mWriteOffset s1 (wake_mWriteOffset e)) = woken)
      by apply stamp_twice.
    rewrite <- Hw. apply IH.
    + unfold s1.
      rewrite <- (stamp_level (wake_ts e1) reader s (wake_mWriteOffset e1))
        in Hl1.
      erewrite level_depends_on; [exact Hl1|done..].
    + eapply List.Forall_impl; [|exact Hoks']. intros e2 [H1 H2].
      split; [done|]. unfold s1.
      erewrite level_depends_on; [exact H2|done|done|]. simpl.
      rewrite <- (stamp_keeps_offset (wake_ts e1) reader
                    (set_mWriteOffset s (wake_mWriteOffset e2)) reader).
      done.
Qed.

(** X12: [waitRead] returns [eIasRingBuffInvalidParam], and changes
    nothing, exactly when the id is unknown, [numBuffers] is [0] or
    above [mNumBuffers], or [timeout_ms] is [0].  Otherwise it stamps
    the reader with the clock and returns [eIasRingBuffOk] at once when
    the reader has [numBuffers] slots to read; and when, after any
    number of wake-ups that leave the reader short, the wait reports a
    timeout, it returns [eIasRingBuffTimeOut] if the reader is still
    short with the write offset seen then and [eIasRingBuffOk] if not,
    while a failure of the wait gives [eIasRingBuffCondWaitFailed];
    every wake-up stamps the reader again, and nothing but the stamp
    and the write offset seen differs from the state before the wait
    ([mReadWaitLevel] apart, which can only go down). *)
Theorem waitRead_results
    (p numBuffers timeout_ms : Z) (ts : timespec)
    (s : IasAvbVideoRingBufferShm) :
  (∀ events,
     (∃ s', waitRead p numBuffers timeout_ms ts events s
            = Some (eIasRingBuffInvalidParam, s'))
     ↔ waitRead_refused p numBuffers timeout_ms s)
  ∧ (waitRead_refused p numBuffers timeout_ms s →
     ∀ events, waitRead p numBuffers timeout_ms ts events s
               = Some (eIasRingBuffInvalidParam, s))
  ∧ (∀ reader,
       findReader p s = Some reader →
       ¬ waitRead_refused p numBuffers timeout_ms s →
       let waiting :=
         updateReaderAccess ts reader
           (if numBuffers <? mReadWaitLevel s
            then set_mReadWaitLevel s numBuffers else s) in
       (∀ events,
          numBuffers <= calculateReaderBufferLevel s reader →
          waitRead p numBuffers timeout_ms ts events s
          = Some (eIasRingBuffOk, waiting))
       ∧ (∀ oks e rest,
            calculateReaderBufferLevel s reader < numBuffers →
            Forall (starving s reader numBuffers) oks →
            let woken := updateReaderAccess (wake_ts e) reader
                           (set_mWriteOffset waiting (wake_mWriteOffset e)) in
            (cndres e = eIasTimeout →
             waitRead p numBuffers timeout_ms ts (oks ++ e :: rest) s
             = Some (if decide (calculateReaderBufferLevel woken reader
                                < numBuffers)
                     then eIasRingBuffTimeOut else eIasRingBuffOk, woken))
            ∧ (cndres e = eIasCondVarFailed →
               waitRead p numBuffers timeout_ms ts (oks ++ e :: rest) s
               = Some (eIasRingBuffCondWaitFailed, woken)))).
Proof.
  unfold waitRead, waitRead_refused.
  destruct (findReader p s) as [reader|] eqn:E.
  2:{ split_and!; [|done|done]. intros events. split; [by left|eauto]. }
  destruct (Z.gtb_spec numBuffers (mNumBuffers s)) as [Hgt|Hle]; simpl.
  { split_and!; [|done|intros ? _ []; right; lia].
    intros events. split; [right; lia|eauto]. }
  destruct (Z.eqb_spec numBuffers 0) as [Hz|Hnz]; simpl.
  { split_and!; [|done|intros ? _ []; right; lia].
    intros events. split; [right; lia|eauto]. }
  destruct (Z.eqb_spec timeout_ms 0) as [Htz|Htnz]; simpl.
  { split_and!; [|done|intros ? _ []; right; lia].
    intros events. split; [right; lia|eauto]. }
  set (s0 := if numBuffers <? mReadWaitLevel s
             then set_mReadWaitLevel s numBuffers else s).
  assert (Hlev : calculateReaderBufferLevel (updateReaderAccess ts reader s0)
                   reader = calculateReaderBufferLevel s reader).
  { apply level_depends_on.
    - unfold s0. by destruct (_ <? _).
    - unfold s0. by destruct (_ <? _).
    - rewrite stamp_keeps_offset. unfold s0. by destruct (_ <? _). }
  split_and!.
  - intros events. split; [|intros [|]; [done|lia]].
    intros [s' Hx]. by apply waitRead_loop_accepts in Hx.
  - intros [|]; [done|lia].
  - intros ? [= <-] _.
    set (waiting := updateReaderAccess ts reader s0) in *. split.
    + intros events Hge. destruct events; simpl; rewrite Hlev;
        by destruct (Z.ltb_spec (calculateReaderBufferLevel s reader)
                       numBuffers); [lia|].
    + intros oks e rest Hlt Hoks.
      apply waitRead_loop_starving; [lia|].
      eapply List.Forall_impl; [|exact Hoks]. intros e1 [H1 H2].
      split; [done|].
      erewrite level_depends_on; [exact H2| | |].
      * simpl. unfold s0. by destruct (_ <? _).
      * done.
      * change (offset (readerAt waiting reader)
                = offset (readerAt s reader)).
        unfold waiting. rewrite stamp_keeps_offset.
        unfold s0. by destruct (_ <? _).
Qed.

(** Reader 7 waits for three slots of an empty ring; woken once for
    nothing, it finds three slots at the timeout and is told so. *)
Lemma waitRead_results_witness :
  waitRead 7 3 100 (at_sec 1) wakes7 (after once7 (ring 4))
  = Some (eIasRingBuffOk,
          updateReaderAccess (at_ms 1100) 0
            (set_mWriteOffset (after once7 (ring 4)) 3)).
Proof.
  destruct (waitRead_results 7 3 100 (at_sec 1) (after once7 (ring 4)))
    as (_ & _ & H).
  destruct (H 0%nat) as [_ Hwake].
  - reflexivity.
  - unfold waitRead_refused. vm_compute. intros [|[|[|]]]; discriminate.
  - destruct (Hwake [ {| cndres := eIasOk; wake_mBufferLevel := 0;
                         wake_mWriteOffset := 0; wake_ts := at_ms 1050 |} ]
                {| cndres := eIasTimeout; wake_mBufferLevel := 3;
                   wake_mWriteOffset := 3; wake_ts := at_ms 1100 |} [])
      as [Htimeout _].
    + vm_compute. reflexivity.
    + constructor; [|constructor]. split; [reflexivity|].
      vm_compute. reflexivity.
    + etransitivity; [exact (Htimeout eq_refl)|]. vm_compute. reflexivity.
Defined.

(** ** The level readers wait for *)

Lemma call_mReadWaitLevel c s s' :
  legal c s → call c s = Some s' →
  mReadWaitLevel s = 0 → mReadWaitLevel s' = 0.
Proof.
  intros Hc. destruct c; simpl.
  - intros [= <-]. unfold addReader. destruct (p <=? 0); [done|].
    by destruct (list_find _ _) as [[i e]|].
  - intros [= <-]. unfold removeReader. by split_ifs.
  - by intros [= <-].
  - intros [= <-]. unfold beginAccess. repeat case_match; simpl; done.
  - intros [= <-]. unfold endAccess, endRead, endWrite.
    repeat case_match; simpl; try done.
    destruct (aggregateReaderOffset_shape
                (set_mReaders s (alter
                   (λ r, set_offset (u32 (offset r + numBuffers))
                           (set_allowedToRead 0 r)) n (mReaders s))))
      as (l & level & ro & ->). done.
  - unfold waitRead. destruct Hc as (_ & Hn & _).
    destruct (findReader p s) as [reader|]; [|by intros [= <-]].
    destruct (_ || _); [by intros [= <-]|].
    intros [[r s1] [Hr ->]]%fmap_Some Hz. simpl.
    apply waitRead_loop_shape in Hr as (wo & l & -> & _). simpl.
    rewrite Hz. unfold is_u32 in Hn.
    destruct (Z.ltb_spec numBuffers 0); [lia|]. done.
  - unfold waitWrite. destruct (_ || _); [by intros [= <-]|].
    intros [[r s1] [Hr ->]]%fmap_Some. simpl.
    by apply waitWrite_loop_shape in Hr as (level & ->).
Qed.

Lemma reachable_waited7 : reachable (after waited7 (ring 4)).
Proof. by apply reachable_run; vm_compute. Qed.

(** X13: [mReadWaitLevel] is [0] in every reachable control block.
    The constructor sets it to [0], and [waitRead], the only function
    that writes it, lowers it to a request that is smaller and never
    raises it; so the level below which the writer's commit would skip
    the wake-up of the readers is never above [0]. *)
Theorem read_wait_level_zero (s : IasAvbVideoRingBufferShm) :
  reachable s → mReadWaitLevel s = 0.
Proof.
  induction 1 as [ps n buf sh s Hn Hinit|c s s' Hs IH Hc Hcall].
  - unfold init in Hinit. destruct (_ || _); [done|].
    by injection Hinit as <-.
  - by apply (call_mReadWaitLevel c s).
Qed.

Lemma read_wait_level_zero_witness :
  mReadWaitLevel (after waited7 (ring 4)) = 0
  ∧ lastAccess (readerAt (after waited7 (ring 4)) 0) = 1100000000.
Proof.
  split; [|reflexivity].
  apply (read_wait_level_zero (after waited7 (ring 4))).
  apply reachable_waited7.
Defined.

(** ** What every reachable ring satisfies *)

(** X14: in every reachable control block of a ring of at most
    [2 ^ 31] slots both offsets are indices of the array, the writer's
    open grant ends within the array and within the free space, free
    entries of the reader table are all zero, and every live reader
    stands between the read offset and the physical end, with an open
    grant that ends within the array and is counted in the fill
    level. *)
Theorem ring_invariants (s : IasAvbVideoRingBufferShm) :
  reachable s →
  2 * mNumBuffers s <= 2 ^ 32 →
  0 <= mWriteOffset s < mNumBuffers s
  ∧ 0 <= mReadOffset s < mNumBuffers s
  ∧ 0 <= mAllowedToWrite s
  ∧ mWriteOffset s + mAllowedToWrite s <= mNumBuffers s
  ∧ mBufferLevel s + mAllowedToWrite s <= mNumBuffers s
  ∧ Forall (λ r,
      (pid r = 0 → r = noReader)
      ∧ (pid r ≠ 0 →
         mReadOffset s <= offset r
         ∧ 0 <= allowedToRead r
         ∧ offset r + allowedToRead r <= mNumBuffers s
         ∧ offset r + allowedToRead r - mReadOffset s <= mBufferLevel s))
      (mReaders s).
Proof.
  intros Hs Hsmall. pose proof (reachable_Inv s Hs Hsmall) as HI.
  pose proof (reachable_free_zero s Hs) as Hfree.
  destruct HI as [_ _ Hr Hw _ _ Ha Hrs _].
  split_and!; try lia.
  apply Forall_lookup_2. intros i r Hi. split.
  - apply (Forall_lookup_1 _ _ _ _ Hfree Hi).
  - apply (Forall_lookup_1 _ _ _ _ Hrs Hi).
Qed.

Lemma ring_invariants_witness :
  mWriteOffset (after wrapped8 (ring 8)) = 0
  ∧ mReadOffset (after wrapped8 (ring 8)) = 4
  ∧ mReadOffset (after wrapped8 (ring 8))
    <= offset (readerAt (after wrapped8 (ring 8)) 0)
  ∧ offset (readerAt (after wrapped8 (ring 8)) 0)
    + allowedToRead (readerAt (after wrapped8 (ring 8)) 0)
    <= mNumBuffers (after wrapped8 (ring 8)).
Proof.
  destruct (ring_invariants (after wrapped8 (ring 8)))
    as (_ & _ & _ & _ & _ & Hrs).
  - apply reachable_wrapped8.
  - vm_compute. discriminate.
  - assert (Hi : mReaders (after wrapped8 (ring 8)) !! 0%nat
                 = Some (readerAt (after wrapped8 (ring 8)) 0))
      by reflexivity.
    destruct (Forall_lookup_1 _ _ _ _ Hrs Hi) as [_ Hlive].
    destruct Hlive as (H1 & _ & H3 & _).
    + vm_compute. discriminate.
    + split; [reflexivity|]. split; [reflexivity|].
      split; [exact H1|exact H3].
Defined.

(** ** A read grant is committed once *)

Lemma findReader_same_pids p s s' reader :
  pids (mReaders s') = pids (mReaders s) →
  findReader p s = Some reader → findReader p s' = Some reader.
Proof.
  unfold findReader, pids. intros Hp H.
  apply fmap_Some in H as [[i r] [H ->]].
  apply list_find_Some in H as (Hi & Hr & Hbefore). simpl.
  assert (Hpid : ∀ j, pid <$> (mReaders s' !! j) = pid <$> (mReaders s !! j))
    by (intros j; by rewrite <- !list_lookup_fmap, Hp).
  pose proof (Hpid i) as Hpi. rewrite Hi in Hpi.
  destruct (mReaders s' !! i) as [r'|] eqn:Hi'; [|done].
  injection Hpi as Hpi.
  apply fmap_Some. exists (i, r'). split; [|done].
  apply list_find_Some. split_and!; [done|congruence|].
  intros j y Hj Hlt. pose proof (Hpid j) as Hpj. rewrite Hj in Hpj.
  destruct (mReaders s !! j) as [y0|] eqn:Hj0; [|done].
  injection Hpj as Hpj. rewrite Hpj. by apply (Hbefore j).
Qed.

(** X15: in a reachable ring of at most [2 ^ 31] slots a read grant is
    used up by its commit: after a successful [endAccess] for read
    access, a further [endAccess] of the same reader for any count
    above [0] is refused with [eIasRingBuffInvalidParam] and changes
    nothing, until a new [beginAccess] grants again. *)
Theorem read_commit_once
    (s s' : IasAvbVideoRingBufferShm) (p offset_a numBuffers : Z)
    (tsAccess tsPurge : timespec) :
  reachable s →
  2 * mNumBuffers s <= 2 ^ 32 →
  p ≠ 0 →
  is_u32 numBuffers →
  endAccess eIasRingBufferAccessRead p offset_a numBuffers tsAccess tsPurge s
  = (eIasRingBuffOk, s') →
  ∀ offset_a' numBuffers' tsAccess' tsPurge',
    0 < numBuffers' →
    endAccess eIasRingBufferAccessRead p offset_a' numBuffers' tsAccess'
      tsPurge' s'
    = (eIasRingBuffInvalidParam, s').
Proof.
  intros Hs Hsmall Hp Hn. unfold endAccess.
  pose proof (reachable_Inv s Hs Hsmall) as HI.
  destruct (findReader p s) as [reader|] eqn:E; [|done].
  destruct (findReader_Some _ _ _ E) as (r & Hr & Hpid & Hat).
  assert (Hlive : live r) by (unfold live; congruence).
  destruct (Z_le_gt_dec numBuffers (allowedToRead r)) as [Hle|Hgt].
  2:{ unfold endRead. rewrite Hat.
      destruct (Z.gtb_spec numBuffers (allowedToRead r)); [done|lia]. }
  destruct (endRead_effect reader r numBuffers tsAccess s HI Hr Hlive Hn Hle)
    as (s1 & -> & _ & _ & _ & _ & _ & _ & Hrs).
  intros [= <-] offset_a' numBuffers' tsAccess' tsPurge' Hpos.
  set (l := alter (λ r, set_offset (u32 (offset r + numBuffers))
                          (set_allowedToRead 0 r)) reader (mReaders s)) in *.
  assert (Hpids : pids (mReaders s1) = pids (mReaders s)).
  { rewrite Hrs, pids_alter by done.
    case_decide; [rewrite pids_resetOffset|]; unfold l;
      by rewrite pids_alter. }
  rewrite (findReader_same_pids p s s1 reader Hpids E).
  assert (Hzero : allowedToRead (readerAt s1 reader) = 0).
  { unfold readerAt. rewrite Hrs, list_lookup_alter_eq.
    case_decide; [rewrite list_lookup_fmap|]; unfold l;
      rewrite list_lookup_alter_eq, Hr; simpl; [|done].
    unfold resetOffset. simpl. by destruct (pid r =? 0). }
  unfold endRead. rewrite Hzero.
  destruct (Z.gtb_spec numBuffers' 0); [done|lia].
Qed.

(** Reader 7 of [wrapped8] commits two of its four granted slots; a
    second commit of the other two is refused. *)
Lemma read_commit_once_witness :
  let s := ba_state (beginAccess eIasRingBufferAccessRead 7 (Some 0) (Some 4)
                       (at_sec 2) (after wrapped8 (ring 8))) in
  let s' := (endAccess eIasRingBufferAccessRead 7 0 2 (at_sec 2) (at_sec 2)
               s).2 in
  endAccess eIasRingBufferAccessRead 7 0 2 (at_sec 3) (at_sec 3) s'
  = (eIasRingBuffInvalidParam, s').
Proof.
  intros s s'.
  apply (read_commit_once s s' 7 0 2 (at_sec 2) (at_sec 2)).
  - apply (reachable_call
             (callBeginAccess eIasRingBufferAccessRead 7 (Some 0) (Some 4)
                (at_sec 2)) (after wrapped8 (ring 8))).
    + apply reachable_wrapped8.
    + apply (bool_decide_unpack _). vm_compute. exact I.
    + reflexivity.
  - vm_compute. discriminate.
  - discriminate.
  - vm_compute. split; [discriminate|reflexivity].
  - vm_compute. reflexivity.
  - lia.
Defined.
